(** * hyperfade: time-based ephemeral records

    A shallow embedding of the lifecycle core of hyperfade
    (lib/time.js, lib/meta.js, lib/gc.js, lib/auto-gc.js and
    lib/hyperdrive-adapter.js) together with the properties its
    specification states about it.

    Conventions of the embedding:
    - a JavaScript number is [Finite z] for an integer number of
      milliseconds, or one of the three non-finite values;
    - a JavaScript string is the list of its UTF-16 code units, so that
      [length] is the [.length] of the source;
    - an [async] function is modelled by its settled outcome: [Ok] is a
      fulfilled promise, [Throw] a rejected one; awaits are sequential;
      the runs that the scheduler starts and does not await settle as
      events of their own;
    - mutable closure variables and external collaborators are threaded
      explicitly as state. *)

From Stdlib Require Import ZArith NArith List String Ascii Bool Lia Sorted.
From stdpp Require Import base gmap.
Import ListNotations.
Open Scope Z_scope.

(** ** JavaScript values *)

Definition jsstring := list N.

Definition str (s : string) : jsstring :=
  map N_of_ascii (list_ascii_of_string s).

Inductive number :=
| Finite (z : Z)
| NaN
| PosInf
| NegInf.

Inductive value :=
| VUndefined
| VNull
| VBool (b : bool)
| VNum (n : number)
| VStr (s : jsstring)
| VObject.

(** [typeof v === 'number'] and [typeof v === 'string'] *)
Definition typeof_number (v : value) : bool :=
  match v with VNum _ => true | _ => false end.

Definition typeof_string (v : value) : bool :=
  match v with VStr _ => true | _ => false end.

(** The global [isFinite]. Every call site of the sources guards it by
    [typeof v === 'number'], so its coercion of other types is not needed. *)
Definition isFinite (v : value) : bool :=
  match v with VNum (Finite _) => true | _ => false end.

(** [a < b] and [a <= b] on numbers, with the IEEE treatment of the
    non-finite values. *)
Definition num_lt (a b : number) : bool :=
  match a, b with
  | NaN, _ | _, NaN => false
  | Finite x, Finite y => x <? y
  | NegInf, NegInf => false
  | NegInf, _ => true
  | PosInf, _ => false
  | Finite _, PosInf => true
  | Finite _, NegInf => false
  end.

Definition num_le (a b : number) : bool :=
  match a, b with
  | NaN, _ | _, NaN => false
  | Finite x, Finite y => x <=? y
  | NegInf, _ => true
  | _, PosInf => true
  | PosInf, _ => false
  | Finite _, NegInf => false
  end.

(** [a <= b] on values; the sources compare numbers only. *)
Definition js_le (a b : value) : bool :=
  match a, b with
  | VNum x, VNum y => num_le x y
  | _, _ => false
  end.

(** ** Errors and the state-and-exception monad *)

(** What is thrown, or given as the reason of a rejection: an [Error]
    object with its message, or any other value. Among those, [VObject]
    stands for an object without a [message] property. *)
Inductive error :=
| JsError (message : string)
| Thrown (v : value).

Inductive result (A : Type) :=
| Ok (a : A)
| Throw (e : error).
Arguments Ok {A} a.
Arguments Throw {A} e.

Definition is_ok {A} (r : result A) : bool :=
  match r with Ok _ => true | Throw _ => false end.

Definition M (S A : Type) : Type := S -> result A * S.

Definition ret {S A} (a : A) : M S A := fun s => (Ok a, s).

Definition throw {S A} (e : error) : M S A := fun s => (Throw e, s).

Definition bind {S A B} (c : M S A) (k : A -> M S B) : M S B :=
  fun s =>
    match c s with
    | (Ok a, s') => k a s'
    | (Throw e, s') => (Throw e, s')
    end.

(** [try { c } catch (e) { h e }], also [promise.catch(h)]. *)
Definition try_catch {S A} (c : M S A) (h : error -> M S A) : M S A :=
  fun s =>
    match c s with
    | (Ok a, s') => (Ok a, s')
    | (Throw e, s') => h e s'
    end.

Definition get {S} : M S S := fun s => (Ok s, s).

Definition modify {S} (f : S -> S) : M S unit := fun s => (Ok tt, f s).

(** Lifting an already settled outcome. *)
Definition settled {S A} (r : result A) : M S A := fun s => (r, s).

(** [await f(...)] for a call that returns a promise: the call itself may
    throw, and the promise it returns may reject. Under an [await] the two
    are the same. *)
Definition await {S A} (call : M S (result A)) : M S A :=
  bind call settled.

(** [v == null], true of [null] and [undefined] only. *)
Definition nullish (v : value) : bool :=
  match v with VNull | VUndefined => true | _ => false end.

(** [x ?? d] for an [x] that may also be left out. *)
Definition nullish_coalesce (x : option value) (d : value) : value :=
  match x with
  | None => d
  | Some v => if nullish v then d else v
  end.

(** The [TypeError] of a property read on [null] or [undefined], as V8
    words it. *)
Definition TypeError_reading_message (v : value) : error :=
  match v with
  | VNull => JsError "Cannot read properties of null (reading 'message')"
  | _ => JsError "Cannot read properties of undefined (reading 'message')"
  end.

(** [err.message]: the message of an [Error]; a [TypeError] when [err] is
    [null] or [undefined]; [undefined] for any other value. *)
Definition message_of {S} (err : error) : M S value :=
  match err with
  | JsError message =>
      ret (VStr (str message))
  | Thrown v =>
      if nullish v then throw (TypeError_reading_message v)
      else ret VUndefined
  end.

Declare Scope js_scope.
Delimit Scope js_scope with js.
Notation "x <- c ;; k" := (bind c (fun x => k))
  (at level 100, c at next level, right associativity) : js_scope.
Notation "c ;; k" := (bind c (fun _ => k))
  (at level 100, right associativity) : js_scope.
Open Scope js_scope.

(** ** lib/meta.js *)

Record EphemeralMeta := {
  id : value;
  createdAt : value;
  updatedAt : value;
  unlockAt : value;
  expiresAt : value
}.

Definition ERR_isExpired_now : error :=
  JsError "[ephemeral] isExpired: now is required and must be finite".

Definition ERR_isUnlocked_now : error :=
  JsError "[ephemeral] isUnlocked: now is required and must be finite".

(** The spec's [InvalidArgument]: the error either predicate throws on a
    [now] that is not a finite number. *)
Definition InvalidArgument (e : error) : Prop :=
  e = ERR_isExpired_now \/ e = ERR_isUnlocked_now.

Section MetaJs.
(** The value of [Date.now()] when the module is loaded. *)
Variable loadTime : Z.

Definition MAX_TIMESTAMP : Z := loadTime + 100 * 365 * 24 * 60 * 60 * 1000.

(** [validateTimestamp(ts, fieldName, min = 0, max = MAX_TIMESTAMP)];
    the callers leave [min] and [max] to their defaults, which they pass
    here explicitly. *)
Definition validateTimestamp (ts : value) (fieldName : string)
    (min max : Z) : bool :=
  if negb (typeof_number ts) then false
  else if negb (isFinite ts) then false
  else
    match ts with
    | VNum n =>
        if num_lt n (Finite min) || num_lt (Finite max) n then false
        else true
    | _ => false
    end.

Definition isExpired (meta : option EphemeralMeta) (now : value)
    : result bool :=
  match meta with
  | None => Ok true
  | Some meta =>
      if negb (typeof_number now) || negb (isFinite now) then
        Throw ERR_isExpired_now
      else if negb (typeof_number (expiresAt meta)) then Ok false
      else if negb (validateTimestamp (expiresAt meta) "expiresAt"
                      0 MAX_TIMESTAMP) then Ok false
      else Ok (js_le (expiresAt meta) now)
  end.

Definition isUnlocked (meta : option EphemeralMeta) (now : value)
    : result bool :=
  match meta with
  | None => Ok false
  | Some meta =>
      if negb (typeof_number now) || negb (isFinite now) then
        Throw ERR_isUnlocked_now
      else if negb (typeof_number (unlockAt meta)) then Ok true
      else if negb (validateTimestamp (unlockAt meta) "unlockAt"
                      0 MAX_TIMESTAMP) then Ok true
      else Ok (js_le (unlockAt meta) now)
  end.

(** [isUnlocked(meta, now) && !isExpired(meta, now)], left to right. *)
Definition isVisible (meta : option EphemeralMeta) (now : value)
    : result bool :=
  match isUnlocked meta now with
  | Throw e => Throw e
  | Ok false => Ok false
  | Ok true =>
      match isExpired meta now with
      | Throw e => Throw e
      | Ok b => Ok (negb b)
      end
  end.
End MetaJs.

(** ** lib/time.js *)

Record ClockOptions := {
  maxBackwardsMs : option Z;
  maxForwardMs : option Z
}.

(** The closure returned by [createMonotonicNow]: the two resolved options
    and the captured variables [startTime] and [last]. *)
Record Clock := {
  clock_maxBackwardsMs : Z;
  clock_maxForwardMs : Z;
  startTime : Z;
  last : Z
}.

Definition set_last (c : Clock) (v : Z) : Clock :=
  {| clock_maxBackwardsMs := clock_maxBackwardsMs c;
     clock_maxForwardMs := clock_maxForwardMs c;
     startTime := startTime c;
     last := v |}.

(** [createMonotonicNow(options)], where [dateNow] is the reading of
    [Date.now()] taken at creation. *)
Definition createMonotonicNow (options : ClockOptions) (dateNow : Z) : Clock :=
  {| clock_maxBackwardsMs := default 1000 (maxBackwardsMs options);
     clock_maxForwardMs := default (60 * 60 * 1000) (maxForwardMs options);
     startTime := dateNow;
     last := dateNow |}.

(** One call of the returned function [now()], where [current] is the
    reading of [Date.now()] it takes: the value returned and the closure
    afterwards. *)
Definition now (c : Clock) (current : Z) : Z * Clock :=
  if current >? startTime c + clock_maxForwardMs c then
    let l := Z.min current (startTime c + clock_maxForwardMs c) in
    (l, set_last c l)
  else if current + clock_maxBackwardsMs c <? last c then
    (last c, c)
  else if current >=? last c then
    (current, set_last c current)
  else
    (last c, c).

(** The diagnostic of the first branch of [now()] is emitted exactly when
    this holds. *)
Definition now_warns (c : Clock) (current : Z) : bool :=
  current >? startTime c + clock_maxForwardMs c.

(** The values returned by successive calls on one instance, one call per
    wall-clock reading. *)
Fixpoint now_calls (c : Clock) (readings : list Z) : list Z :=
  match readings with
  | [] => []
  | current :: rest =>
      let (v, c') := now c current in
      v :: now_calls c' rest
  end.

(** ** lib/gc.js *)

Record EphemeralGCResult := { expired : nat }.

(** What calling [ctx.listMetas()] produces. *)
Inductive Listing :=
| ListThrows (e : error)
| ListPromise (r : result (list (option EphemeralMeta)))
| ListAsyncIterable (items : list (option EphemeralMeta))
                    (failure : option error)
| ListOther.

Definition ERR_listMetas : error :=
  JsError "[ephemeral] listMetas must return Promise<Array> or AsyncIterable".

Section GcJs.
Variable loadTime : Z.
(** The state of the external collaborators (backend, caller's clock). *)
Context {W : Type}.

Record EphemeralGCContext := {
  listMetas : W -> Listing * W;
  saveMeta : EphemeralMeta -> M W unit;
  onExpire : option (EphemeralMeta -> M W unit)
}.

(** [options.nowFn]; the default, [createMonotonicNow()], is such a
    function too, its closure being part of [W]. *)
Record GCOptions := { nowFn : M W value }.

(** The run's state: the collaborators' state and, as a record of what
    the run did, the arguments of its [ctx.onExpire] calls in order. *)
Record GCState := { world : W; calls : list EphemeralMeta }.

Definition in_world {A} (c : M W A) : M GCState A :=
  fun s =>
    let (r, w') := c (world s) in
    (r, {| world := w'; calls := calls s |}).

Definition call_onExpire (cb : EphemeralMeta -> M W unit)
    (meta : EphemeralMeta) : M GCState unit :=
  fun s =>
    let (r, w') := cb meta (world s) in
    (r, {| world := w'; calls := calls s ++ [meta] |}).

Definition normalizeList (fn : W -> Listing * W)
    : M W (list (option EphemeralMeta)) :=
  try_catch
    (fun w =>
       let (result, w') := fn w in
       match result with
       | ListThrows e => (Throw e, w')
       | ListPromise r => (r, w')
       | ListOther => (Throw ERR_listMetas, w')
       | ListAsyncIterable items None => (Ok items, w')
       | ListAsyncIterable items (Some e) => (Throw e, w')
       end)
    (fun err => throw err).

(** [if (ctx.onExpire) { await ctx.onExpire(meta) }] *)
Definition await_onExpire (ctx : EphemeralGCContext) (meta : EphemeralMeta)
    : M GCState unit :=
  match onExpire ctx with
  | Some cb => call_onExpire cb meta
  | None => ret tt
  end.

(** The [for (const meta of metas)] loop; [expired] is the counter. *)
Fixpoint gc_loop (ctx : EphemeralGCContext) (now : value)
    (metas : list (option EphemeralMeta)) (expired : nat)
    : M GCState nat :=
  match metas with
  | [] => ret expired
  | None :: rest => gc_loop ctx now rest expired
  | Some meta :: rest =>
      is_expired <- settled (isExpired loadTime (Some meta) now) ;;
      if negb is_expired then gc_loop ctx now rest expired
      else
        await_onExpire ctx meta ;;
        gc_loop ctx now rest (S expired)
  end.

Definition runEphemeralGC (ctx : EphemeralGCContext) (options : GCOptions)
    : M GCState EphemeralGCResult :=
  now <- in_world (nowFn options) ;;
  metas <- in_world (normalizeList (listMetas ctx)) ;;
  expired <- gc_loop ctx now metas 0 ;;
  ret {| expired := expired |}.
End GcJs.

Arguments EphemeralGCContext W : clear implicits.
Arguments GCOptions W : clear implicits.
Arguments GCState W : clear implicits.

(** ** lib/auto-gc.js *)

Inductive AutoGCDiag :=
| WarnAutoGCError (count : nat) (err : error)
| ErrorTooManyGCErrors.

(** The closure variables of one controller and the console. *)
Record AutoGC := {
  timer : option Z;
  consecutiveErrors : nat;
  console : list AutoGCDiag
}.

Definition MAX_CONSECUTIVE_ERRORS : nat := 5.

Definition createEphemeralAutoGC : AutoGC :=
  {| timer := None; consecutiveErrors := 0; console := [] |}.

Definition set_timer (t : option Z) (a : AutoGC) : AutoGC :=
  {| timer := t; consecutiveErrors := consecutiveErrors a;
     console := console a |}.

Definition set_consecutiveErrors (n : nat) (a : AutoGC) : AutoGC :=
  {| timer := timer a; consecutiveErrors := n; console := console a |}.

Definition log (d : AutoGCDiag) (a : AutoGC) : AutoGC :=
  {| timer := timer a; consecutiveErrors := consecutiveErrors a;
     console := console a ++ [d] |}.

Definition stop : M AutoGC unit :=
  a <- get ;;
  match timer a with
  | None => ret tt
  | Some _ => modify (set_timer None)
  end.

(** [start()]; the timer handle is represented by its interval. *)
Definition start (intervalMs : Z) : M AutoGC unit :=
  a <- get ;;
  match timer a with
  | Some _ => ret tt
  | None =>
      modify (set_consecutiveErrors 0) ;;
      modify (set_timer (Some intervalMs))
  end.

Definition isRunning (a : AutoGC) : bool :=
  match timer a with Some _ => true | None => false end.

(** The two handlers that [tick] attaches to the promise of the run. *)
Definition tick_then (_ : EphemeralGCResult) : M AutoGC unit :=
  modify (set_consecutiveErrors 0).

Definition tick_catch (err : error) : M AutoGC unit :=
  modify (fun a => set_consecutiveErrors (S (consecutiveErrors a)) a) ;;
  a <- get ;;
  modify (log (WarnAutoGCError (consecutiveErrors a) err)) ;;
  if (MAX_CONSECUTIVE_ERRORS <=? consecutiveErrors a)%nat then
    modify (log ErrorTooManyGCErrors) ;;
    stop
  else ret tt.

(** [promise.then(tick_then).catch(tick_catch)] once the run has settled
    with [r]. *)
Definition tick_settle (r : result EphemeralGCResult) : M AutoGC unit :=
  try_catch (v <- settled r ;; tick_then v) tick_catch.













(** ** lib/hyperdrive-adapter.js *)

(** [s.startsWith(p)] and [s.includes(p)] on code units. *)
Fixpoint starts_with (s p : jsstring) : bool :=
  match p, s with
  | [], _ => true
  | _ :: _, [] => false
  | a :: p', b :: s' => (a =? b)%N && starts_with s' p'
  end.

Fixpoint includes (s p : jsstring) : bool :=
  starts_with s p ||
  match s with
  | [] => false
  | _ :: s' => includes s' p
  end.

Definition sanitizePathComponent (component : value) : option jsstring :=
  match component with
  | VStr component =>
      if includes component (str "..") || includes component (str "/")
         || includes component (str "\")
      then None
      else if (length component =? 0)%nat || (255 <? length component)%nat
      then None
      else Some component
  | _ => None
  end.

(** The character class [[a-zA-Z0-9_-]]. *)
Definition id_class (c : N) : bool :=
  ((97 <=? c) && (c <=? 122) || (65 <=? c) && (c <=? 90)
   || (48 <=? c) && (c <=? 57) || (c =? 95) || (c =? 45))%N.

(** [/^[a-zA-Z0-9_-]+$/.test(s)]: after [^], one character of the class,
    then as many as there are, then [$] at the end of the input. *)
Fixpoint regex_class_star_end (s : jsstring) : bool :=
  match s with
  | [] => true
  | c :: rest => id_class c && regex_class_star_end rest
  end.

Definition regex_id_test (s : jsstring) : bool :=
  match s with
  | [] => false
  | c :: rest => id_class c && regex_class_star_end rest
  end.

Definition validateMetaId (id : value) : bool :=
  match id with
  | VStr id =>
      if (length id =? 0)%nat || (255 <? length id)%nat then false
      else if negb (regex_id_test id) then false
      else true
  | _ => false
  end.

Definition ERR_invalid_meta_id_format : error :=
  JsError "Invalid meta.id: must be a non-empty string (max 255 chars, alphanumeric/hyphen/underscore only)".

Definition ERR_invalid_meta_id : error := JsError "Invalid meta.id".

Definition ERR_invalid_metaFile : error := JsError "Invalid metaFile".

(** The spec's names for the rejections of the write path. *)
Definition InvalidId (e : error) : Prop :=
  e = ERR_invalid_meta_id_format \/ e = ERR_invalid_meta_id.

Definition InvalidMetaFile (e : error) : Prop := e = ERR_invalid_metaFile.

Record HyperdriveEphemeralOptions := {
  prefix : jsstring;
  metaFile : option value;
  filesToDelete : list value
}.

(** The messages of [console.warn], by their parts. *)
Inductive AdapterDiag :=
| WarnInvalidMetaId (id : value)
| WarnFailedToDeleteFiles (count : nat) (id : jsstring)
| WarnFailedToDelete (path : jsstring) (reason : error)
| WarnFailedToDeleteIndex (index : nat) (reason : error)
| WarnStillExists (name id : jsstring)
| WarnRetryFailed (path : jsstring) (message : value)
| WarnCouldNotVerify (path : jsstring) (message : value).

Section HyperdriveAdapterJs.
(** The drive is an external collaborator: its state and its methods.
    [put] and [exists] are only called under an [await], inside the async
    function or its [try] block, where a call that throws and a promise
    that rejects are the same: both are a [Throw]. [del] is also called
    inside [Array.prototype.map], outside any [await]: there a [Throw] is
    a call that throws, and the [result] it returns is the settlement of
    its promise. Whatever fails, the reason can be any value. *)
Context {D Buf : Type}.
Variable drive_put : jsstring -> Buf -> M D unit.
Variable drive_del : jsstring -> M D (result unit).
Variable drive_exists : option (jsstring -> M D bool).
(** [Buffer.from(JSON.stringify(meta))] *)
Variable stringify : EphemeralMeta -> Buf.

(** What an adapter operation does to its surroundings, in order. *)
Inductive Effect :=
| DrivePut (path : jsstring) (buf : Buf)
| DriveDel (path : jsstring)
| DriveExists (path : jsstring)
| ConsoleWarn (d : AdapterDiag)
| Sleep (ms : Z).

Record AdapterState := { drive : D; effects : list Effect }.

Definition on_drive {A} (e : Effect) (c : M D A) : M AdapterState A :=
  fun s =>
    let (r, d') := c (drive s) in
    (r, {| drive := d'; effects := effects s ++ [e] |}).

Definition effect (e : Effect) : M AdapterState unit :=
  fun s => (Ok tt, {| drive := drive s; effects := effects s ++ [e] |}).

Definition put (path : jsstring) (buf : Buf) : M AdapterState unit :=
  on_drive (DrivePut path buf) (drive_put path buf).

Definition del (path : jsstring) : M AdapterState (result unit) :=
  on_drive (DriveDel path) (drive_del path).

Definition warn (d : AdapterDiag) : M AdapterState unit :=
  effect (ConsoleWarn d).

Definition slash : jsstring := str "/".

Definition saveMetaToHyperdrive (prefix : jsstring) (metaFile : value)
    (meta : EphemeralMeta) : M AdapterState unit :=
  if negb (validateMetaId (id meta)) then throw ERR_invalid_meta_id_format
  else
    match sanitizePathComponent (id meta) with
    | None => throw ERR_invalid_meta_id
    | Some id =>
        match sanitizePathComponent metaFile with
        | None => throw ERR_invalid_metaFile
        | Some metaFileName =>
            let path := prefix ++ slash ++ id ++ slash ++ metaFileName in
            let buf := stringify meta in
            put path buf
        end
    end.

(** [Promise.allSettled(names.map((name) => drive.del(base/name)))]:
    [map] makes the calls of [del] one after the other, before
    [Promise.allSettled] is called, so that a call that throws ends the
    [map] and with it the function; the promises of calls that return
    are all awaited, whatever they settle with. *)
Fixpoint allSettled_del (base : jsstring) (names : list jsstring)
    : M AdapterState (list (result unit)) :=
  match names with
  | [] => ret []
  | name :: rest =>
      promise <- del (base ++ slash ++ name) ;;
      results <- allSettled_del base rest ;;
      ret (promise :: results)
  end.

(** The rejected entries of [results], each with its index. *)
Fixpoint rejected_from (index : nat) (results : list (result unit))
    : list (nat * error) :=
  match results with
  | [] => []
  | Ok _ :: rest => rejected_from (S index) rest
  | Throw reason :: rest => (index, reason) :: rejected_from (S index) rest
  end.

Fixpoint forEach {S A} (f : A -> M S unit) (l : list A) : M S unit :=
  match l with
  | [] => ret tt
  | x :: rest => f x ;; forEach f rest
  end.

Definition report_failure (base : jsstring) (sanitizedFiles : list jsstring)
    (failure : nat * error) : M AdapterState unit :=
  let (failureIndex, reason) := failure in
  match nth_error sanitizedFiles failureIndex with
  | Some fileName => warn (WarnFailedToDelete (base ++ slash ++ fileName) reason)
  | None => warn (WarnFailedToDeleteIndex failureIndex reason)
  end.

(** The body of the verification loop for one file. *)
Definition verify_deleted (exists_ : jsstring -> M D bool)
    (base id name : jsstring) : M AdapterState unit :=
  let path := base ++ slash ++ name in
  try_catch
    (present <- on_drive (DriveExists path) (exists_ path) ;;
     if present then
       try_catch
         (await (del path) ;;
          effect (Sleep 50) ;;
          stillExists <- on_drive (DriveExists path) (exists_ path) ;;
          if stillExists then warn (WarnStillExists name id) else ret tt)
         (fun retryErr =>
            message <- message_of retryErr ;;
            warn (WarnRetryFailed path message))
     else ret tt)
    (fun err =>
       message <- message_of err ;;
       warn (WarnCouldNotVerify path message)).

Definition sanitize_all (names : list value) : list jsstring :=
  omap sanitizePathComponent names.

Definition deleteFilesFromHyperdrive (prefix : jsstring)
    (filesToDelete : list value) (meta : EphemeralMeta)
    : M AdapterState unit :=
  if negb (validateMetaId (id meta)) then
    warn (WarnInvalidMetaId (id meta)) ;;
    ret tt
  else
    match sanitizePathComponent (id meta) with
    | None => ret tt
    | Some id =>
        let base := prefix ++ slash ++ id in
        let sanitizedFiles := sanitize_all filesToDelete in
        results <- allSettled_del base sanitizedFiles ;;
        let failures := rejected_from 0 results in
        (if (0 <? length failures)%nat then
           warn (WarnFailedToDeleteFiles (length failures) id) ;;
           forEach (report_failure base sanitizedFiles) failures
         else ret tt) ;;
        match drive_exists with
        | Some exists_ =>
            effect (Sleep 100) ;;
            forEach (verify_deleted exists_ base id) sanitizedFiles
        | None => ret tt
        end
    end.

(** The [saveMeta] and [onExpire] members of the context that
    [createHyperdriveEphemeralContext(drive, options)] returns; the name
    of the meta file is [options.metaFile ?? 'meta.json']. *)
Definition context_saveMeta (options : HyperdriveEphemeralOptions)
    (meta : EphemeralMeta) : M AdapterState unit :=
  saveMetaToHyperdrive (prefix options)
    (nullish_coalesce (metaFile options) (VStr (str "meta.json"))) meta.

Definition context_onExpire (options : HyperdriveEphemeralOptions)
    (meta : EphemeralMeta) : M AdapterState unit :=
  deleteFilesFromHyperdrive (prefix options) (filesToDelete options) meta.
End HyperdriveAdapterJs.

Arguments Effect Buf : clear implicits.
Arguments AdapterState D Buf : clear implicits.

(** An in-memory drive: a finite map from paths to buffers, whose
    operations never fail; [del] returns a promise that fulfils. *)
Section MemoryDrive.
Context {Buf : Type}.

Definition mem_put (path : jsstring) (buf : Buf)
    : M (gmap jsstring Buf) unit :=
  modify (fun d => <[path := buf]> d).

Definition mem_del (path : jsstring)
    : M (gmap jsstring Buf) (result unit) :=
  modify (fun d => delete path d) ;; ret (Ok tt).

Definition mem_exists (path : jsstring) : M (gmap jsstring Buf) bool :=
  d <- get ;; ret (bool_decide (is_Some (d !! path))).
End MemoryDrive.

(** ** Notions of the specification *)

(** A record whose [expiresAt] is a number within the bounds of the
    timestamp validation, at or before [n]. *)
Definition due (loadTime n : Z) (m : EphemeralMeta) : bool :=
  match expiresAt m with
  | VNum (Finite e) =>
      (0 <=? e) && (e <=? MAX_TIMESTAMP loadTime) && (e <=? n)
  | _ => false
  end.

(** A record whose [expiresAt] is at or before [n], whatever its size. *)
Definition past_expiresAt (n : Z) (m : EphemeralMeta) : bool :=
  match expiresAt m with
  | VNum (Finite e) => e <=? n
  | _ => false
  end.

(** The entries of a listing that are records, the null entries left out. *)
Definition present (metas : list (option EphemeralMeta))
    : list EphemeralMeta :=
  omap (fun entry => entry) metas.

Definition due_records (loadTime n : Z) (metas : list (option EphemeralMeta))
    : list EphemeralMeta :=
  List.filter (due loadTime n) (present metas).

(** The characters of [[A-Za-z0-9_-]], one by one. *)
Definition id_alphabet : jsstring :=
  str "ABCDEFGHIJKLMNOPQRSTUVWXYZabcdefghijklmnopqrstuvwxyz0123456789_-".

(** The white space of ECMAScript: tab, line feed, vertical tab, form
    feed, carriage return, space, no-break space, the Unicode space
    separators, the line and paragraph separators and the byte order mark. *)
Definition whitespace : list N :=
  [9; 10; 11; 12; 13; 32; 160; 5760; 8192; 8193; 8194; 8195; 8196; 8197;
   8198; 8199; 8200; 8201; 8202; 8232; 8233; 8239; 8287; 12288; 65279]%N.

(** The ceiling of a clock instance, [startTime + maxForwardMs]. *)
Definition ceiling (c : Clock) : Z := startTime c + clock_maxForwardMs c.

(** ** Sample records and contexts *)

Definition record (name : string) (expires : value) : EphemeralMeta :=
  {| id := VStr (str name);
     createdAt := VNum (Finite 1000);
     updatedAt := VNum (Finite 1000);
     unlockAt := VUndefined;
     expiresAt := expires |}.

(** A context over a backend without state: [listMetas] resolves to
    [metas] and [onExpire] is [cb]. *)
Definition listing_ctx (metas : list (option EphemeralMeta))
    (cb : option (EphemeralMeta -> M unit unit)) : EphemeralGCContext unit :=
  {| listMetas := fun w => (ListPromise (Ok metas), w);
     saveMeta := fun _ => ret tt;
     onExpire := cb |}.

(** A context whose [listMetas] rejects. *)
Definition failing_ctx (e : error) : EphemeralGCContext unit :=
  {| listMetas := fun w => (ListPromise (Throw e), w);
     saveMeta := fun _ => ret tt;
     onExpire := None |}.

Definition fixed_now (n : Z) : GCOptions unit :=
  {| nowFn := ret (VNum (Finite n)) |}.

Definition nan_now : GCOptions unit := {| nowFn := ret (VNum NaN) |}.

Definition fresh_run : GCState unit := {| world := tt; calls := [] |}.

Definition succeeding_callback : EphemeralMeta -> M unit unit :=
  fun _ => ret tt.

Definition failing_callback : EphemeralMeta -> M unit unit :=
  fun _ => throw (JsError "delete failed").

(** A drive without state whose [del] returns a promise that rejects and
    whose [exists] fails with an [Error]. *)
Definition rejecting_del : jsstring -> M unit (result unit) :=
  fun _ => ret (Throw (JsError "del failed")).

Definition rejecting_exists : jsstring -> M unit bool :=
  fun _ => throw (JsError "exists failed").

(** ** Notions for the clock and the scheduler over time *)

(** The closure of a clock instance after a sequence of calls. *)
Fixpoint clock_after (c : Clock) (readings : list Z) : Clock :=
  match readings with
  | [] => c
  | current :: rest => clock_after (snd (now c current)) rest
  end.

(** The running maximum of the readings, started at [prev] and capped at
    [cap]. *)
Fixpoint capped_running_max (cap prev : Z) (readings : list Z) : list Z :=
  match readings with
  | [] => []
  | current :: rest =>
      let v := Z.min cap (Z.max prev current) in
      v :: capped_running_max cap v rest
  end.

(** The scheduler seen from outside: calls of [start] and [stop], and runs
    of the collector that settle (also after a [stop], for a run that was
    under way). *)
Inductive AutoGCEvent :=
| CallStart (intervalMs : Z)
| CallStop
| RunSettles (r : result EphemeralGCResult).

Definition auto_event (a : AutoGC) (ev : AutoGCEvent) : AutoGC :=
  match ev with
  | CallStart intervalMs => snd (start intervalMs a)
  | CallStop => snd (stop a)
  | RunSettles r => snd (tick_settle r a)
  end.

Definition auto_events (evs : list AutoGCEvent) (a : AutoGC) : AutoGC :=
  fold_left auto_event evs a.

(** Fewer than five failed runs followed by a run that succeeds. *)
Definition recovered_streak (b : list error * EphemeralGCResult)
    : list AutoGCEvent :=
  map (fun e => RunSettles (Throw e)) (fst b) ++ [RunSettles (Ok (snd b))].

(** ** Notions for the adapter *)

(** A path component that cannot leave its directory: not empty, at most
    255 code units, without [/], without a backslash and without [..]. *)
Definition safe_component (x : jsstring) : Prop :=
  (1 <= length x <= 255)%nat /\ ~ In 47%N x /\ ~ In 92%N x /\
  (forall pre post, x <> pre ++ str ".." ++ post).

(** A computation that never throws. *)
Definition total {S A} (c : M S A) : Prop :=
  forall s, is_ok (fst (c s)) = true.

(** A computation of the adapter that only adds effects, all of them
    satisfying [P]. *)
Definition within {D Buf A} (P : Effect Buf -> Prop)
    (c : M (AdapterState D Buf) A) : Prop :=
  forall s, exists es,
    effects (snd (c s)) = effects s ++ es /\ Forall P es.

(** A reason whose [message] can be read: anything but [null] and
    [undefined]. *)
Definition has_message (e : error) : bool :=
  match e with
  | JsError _ => true
  | Thrown v => negb (nullish v)
  end.

(** A [del] that returns a promise whatever it is given: the call itself
    never throws, the promise may reject. *)
Definition returns_promise {D A} (f : jsstring -> M D (result A)) : Prop :=
  forall path, total (f path).

(** An [exists] that, when it fails, does not fail with [null] or
    [undefined] as the reason. *)
Definition fails_with_a_reason {D A}
    (f : option (jsstring -> M D A)) : Prop :=
  forall g path d e,
    f = Some g -> fst (g path d) = Throw e -> has_message e = true.

(** What the expiration callback may do for [meta]: warn, sleep, and call
    [del] and [exists] on the files named in [filesToDelete], under the
    directory of the record. *)
Definition deletion_effect {Buf} (prefix : jsstring)
    (filesToDelete : list value) (meta : EphemeralMeta) (e : Effect Buf)
    : Prop :=
  match e with
  | DrivePut _ _ => False
  | DriveDel path | DriveExists path =>
      exists i name,
        id meta = VStr i /\ validateMetaId (VStr i) = true /\
        In (VStr name) filesToDelete /\ safe_component name /\
        path = prefix ++ str "/" ++ i ++ str "/" ++ name
  | ConsoleWarn _ | Sleep _ => True
  end.

(** The in-memory drive after the deletion of the files [names] of the
    directory [base]. *)
Definition mem_deleted {Buf} (base : jsstring) (names : list jsstring)
    (d : gmap jsstring Buf) : gmap jsstring Buf :=
  fold_left (fun d name => delete (base ++ str "/" ++ name) d) names d.

(** ** lib/hyperdrive-adapter.js: the read path *)

Definition MAX_META_SIZE : Z := 5 * 1024 * 1024.

(** [!v] *)
Definition falsy (v : value) : bool :=
  match v with
  | VUndefined | VNull => true
  | VBool b => negb b
  | VNum (Finite z) => z =? 0
  | VNum NaN => true
  | VNum _ => false
  | VStr s => (length s =? 0)%nat
  | VObject => false
  end.

(** [v !== undefined] *)
Definition defined (v : value) : bool :=
  match v with VUndefined => false | _ => true end.

(** What the iterator of [drive.readdir] yields: a name, or an object
    with a property [name]. *)
Inductive DirEntry :=
| EntryString (name : jsstring)
| EntryObject (name : value).

(** The messages of [console.warn] of the read path, by their parts. *)
Inductive ListingDiag :=
| WarnMetaTooLarge (path : jsstring) (length : Z)
| WarnNotAnObject (path : jsstring)
| WarnMissingId (path : jsstring)
| WarnInvalidIdFormat (path : jsstring)
| WarnInvalidCreatedAt (path : jsstring)
| WarnInvalidUpdatedAt (path : jsstring)
| WarnInvalidExpiresAt (path : jsstring)
| WarnExpiresAtOutOfBounds (path : jsstring)
| WarnInvalidUnlockAt (path : jsstring)
| WarnUnlockAtOutOfBounds (path : jsstring)
| WarnParseFailed (path : jsstring) (err : error).

(** [typeof v !== 'number' || !isFinite(v)] *)
Definition not_finite_number (v : value) : bool :=
  negb (typeof_number v) || negb (isFinite v).

(** [v < 0 || v > now + 100 * 365 * 24 * 60 * 60 * 1000], for a number. *)
Definition out_of_bounds (v : value) (now : Z) : bool :=
  match v with
  | VNum n =>
      num_lt n (Finite 0)
      || num_lt (Finite (now + 100 * 365 * 24 * 60 * 60 * 1000)) n
  | _ => false
  end.

(** The checks of the read path on what [JSON.parse] returned: [None] for
    a value that is not an object (or is null), [Some meta] for an object
    with its properties. The outcome is the warning of the first check
    that fails, after which the loop continues, or the record to push. *)
Definition check_parsed (now : Z) (path : jsstring)
    (parsed : option EphemeralMeta) : ListingDiag + EphemeralMeta :=
  match parsed with
  | None => inl (WarnNotAnObject path)
  | Some meta =>
      if falsy (id meta) || negb (typeof_string (id meta)) then
        inl (WarnMissingId path)
      else if negb (validateMetaId (id meta)) then
        inl (WarnInvalidIdFormat path)
      else if defined (createdAt meta)
              && not_finite_number (createdAt meta) then
        inl (WarnInvalidCreatedAt path)
      else if defined (updatedAt meta)
              && not_finite_number (updatedAt meta) then
        inl (WarnInvalidUpdatedAt path)
      else if defined (expiresAt meta)
              && not_finite_number (expiresAt meta) then
        inl (WarnInvalidExpiresAt path)
      else if defined (expiresAt meta)
              && out_of_bounds (expiresAt meta) now then
        inl (WarnExpiresAtOutOfBounds path)
      else if defined (unlockAt meta)
              && not_finite_number (unlockAt meta) then
        inl (WarnInvalidUnlockAt path)
      else if defined (unlockAt meta)
              && out_of_bounds (unlockAt meta) now then
        inl (WarnUnlockAtOutOfBounds path)
      else inr meta
  end.

Section HyperdriveListingJs.
(** The state of the surroundings, that is of the drive and of the wall
    clock, and their operations. [drive.readdir] may be missing; called,
    it returns nothing or an iterator, given here by the entries it
    yields and the failure it ends with, if any. *)
Context {D Buf : Type}.
Variable drive_readdir :
  option (jsstring -> D -> option (list DirEntry * option error) * D).
Variable drive_get : jsstring -> M D (option Buf).
Variable Date_now : D -> Z * D.
(** [buf.length], [JSON.parse(bufferToString(buf))] and the conversion
    to a string of a template literal. What [JSON.parse] throws is a
    [SyntaxError], an [Error] object, whose message the handler of the
    loop reads. *)
Variable buf_length : Buf -> Z.
Variable JSON_parse : Buf -> result (option EphemeralMeta).
Variable ToString : value -> jsstring.

Record ListingState := { listing_drive : D; warnings : list ListingDiag }.

Definition on_listing_drive {A} (c : M D A) : M ListingState A :=
  fun s =>
    let (r, d') := c (listing_drive s) in
    (r, {| listing_drive := d'; warnings := warnings s |}).

Definition listing_warn (d : ListingDiag) : M ListingState unit :=
  fun s =>
    (Ok tt, {| listing_drive := listing_drive s;
               warnings := warnings s ++ [d] |}).

(** [typeof entry === 'string' ? entry : entry.name] *)
Definition entry_id (entry : DirEntry) : value :=
  match entry with
  | EntryString name => VStr name
  | EntryObject name => name
  end.

(** The body of the [for await] loop, over the entries that the iterator
    yields; [metas] is the array built so far. *)
Fixpoint list_entries (prefix : jsstring) (metaFile : value) (now : Z)
    (entries : list DirEntry) (metas : list EphemeralMeta)
    : M ListingState (list EphemeralMeta) :=
  match entries with
  | [] => ret metas
  | entry :: rest =>
      let id := entry_id entry in
      if falsy id then list_entries prefix metaFile now rest metas
      else
        let path :=
          prefix ++ str "/" ++ ToString id ++ str "/" ++ ToString metaFile in
        buf <- on_listing_drive (drive_get path) ;;
        match buf with
        | None => list_entries prefix metaFile now rest metas
        | Some buf =>
            if buf_length buf >? MAX_META_SIZE then
              listing_warn (WarnMetaTooLarge path (buf_length buf)) ;;
              list_entries prefix metaFile now rest metas
            else
              match JSON_parse buf with
              | Throw err =>
                  listing_warn (WarnParseFailed path err) ;;
                  list_entries prefix metaFile now rest metas
              | Ok parsed =>
                  match check_parsed now path parsed with
                  | inl d =>
                      listing_warn d ;;
                      list_entries prefix metaFile now rest metas
                  | inr meta =>
                      list_entries prefix metaFile now rest (metas ++ [meta])
                  end
              end
        end
  end.

(** [createMonotonicNow()()]: a clock is created and called once. *)
Definition fresh_now : M D Z :=
  fun d =>
    let (created, d1) := Date_now d in
    let (current, d2) := Date_now d1 in
    (Ok (fst (now (createMonotonicNow
                     {| maxBackwardsMs := None; maxForwardMs := None |}
                     created) current)), d2).

Definition listMetasFromHyperdrive (prefix : jsstring) (metaFile : value)
    : M ListingState (list EphemeralMeta) :=
  match drive_readdir with
  | None => ret []
  | Some readdir =>
      it <- on_listing_drive
              (fun d => let (it, d') := readdir prefix d in (Ok it, d')) ;;
      match it with
      | None => ret []
      | Some (entries, failure) =>
          now <- on_listing_drive fresh_now ;;
          metas <- list_entries prefix metaFile now entries [] ;;
          match failure with
          | Some e => throw e
          | None => ret metas
          end
      end
  end.

(** The [listMetas] member of the context that
    [createHyperdriveEphemeralContext(drive, options)] returns. *)
Definition context_listMetas (options : HyperdriveEphemeralOptions)
    : M ListingState (list EphemeralMeta) :=
  listMetasFromHyperdrive (prefix options)
    (nullish_coalesce (metaFile options) (VStr (str "meta.json"))).
End HyperdriveListingJs.

Arguments ListingState D : clear implicits.

(** ** Notions for the read path *)

(** A timestamp property that is absent or a finite number. *)
Definition absent_or_finite (v : value) : Prop :=
  v = VUndefined \/ exists z, v = VNum (Finite z).

(** A timestamp property that is absent or a finite number from 0 to
    [now] plus 100 years of 365 days. *)
Definition absent_or_bounded (now : Z) (v : value) : Prop :=
  v = VUndefined \/
  exists z, v = VNum (Finite z) /\
            0 <= z <= now + 100 * 365 * 24 * 60 * 60 * 1000.

Definition well_formed_record (now : Z) (m : EphemeralMeta) : Prop :=
  validateMetaId (id m) = true /\
  absent_or_finite (createdAt m) /\
  absent_or_finite (updatedAt m) /\
  absent_or_bounded now (expiresAt m) /\
  absent_or_bounded now (unlockAt m).

(** ** lib/hyperdrive-adapter.js: the complete setup *)

Section HyperdriveGcJs.
(** The surroundings: the drive with all its methods and the wall clock,
    and the conversions of buffers and values. *)
Context {D Buf : Type}.
Variable drive_put : jsstring -> Buf -> M D unit.
Variable drive_del : jsstring -> M D (result unit).
Variable drive_exists : option (jsstring -> M D bool).
Variable drive_readdir :
  option (jsstring -> D -> option (list DirEntry * option error) * D).
Variable drive_get : jsstring -> M D (option Buf).
Variable Date_now : D -> Z * D.
Variable stringify : EphemeralMeta -> Buf.
Variable buf_length : Buf -> Z.
Variable JSON_parse : Buf -> result (option EphemeralMeta).
Variable ToString : value -> jsstring.

(** The state that a setup made by [createHyperdriveEphemeralGC] acts
    on: the surroundings, what was done to them and said about them, and
    the closure of the one clock that the setup creates. *)
Record HyperdriveWorld := {
  hw_drive : D;
  hw_effects : list (Effect Buf);
  hw_warnings : list ListingDiag;
  hw_clock : Clock
}.

Definition as_adapter {A} (c : M (AdapterState D Buf) A)
    : M HyperdriveWorld A :=
  fun w =>
    let (r, s') := c {| drive := hw_drive w; effects := hw_effects w |} in
    (r, {| hw_drive := drive s'; hw_effects := effects s';
           hw_warnings := hw_warnings w; hw_clock := hw_clock w |}).

Definition as_listing {A} (c : M (ListingState D) A)
    : M HyperdriveWorld A :=
  fun w =>
    let (r, s') :=
      c {| listing_drive := hw_drive w; warnings := hw_warnings w |} in
    (r, {| hw_drive := listing_drive s'; hw_effects := hw_effects w;
           hw_warnings := warnings s'; hw_clock := hw_clock w |}).

(** A call of the function that [createMonotonicNow()] returned. *)
Definition clock_nowFn : M HyperdriveWorld value :=
  fun w =>
    let (current, d') := Date_now (hw_drive w) in
    let (v, c') := now (hw_clock w) current in
    (Ok (VNum (Finite v)),
     {| hw_drive := d'; hw_effects := hw_effects w;
        hw_warnings := hw_warnings w; hw_clock := c' |}).

Definition createHyperdriveEphemeralContext
    (options : HyperdriveEphemeralOptions)
    : EphemeralGCContext HyperdriveWorld :=
  {| listMetas := fun w =>
       let (r, w') :=
         as_listing (context_listMetas drive_readdir drive_get Date_now
                       buf_length JSON_parse ToString options) w in
       (ListPromise match r with
                    | Ok metas => Ok (map Some metas)
                    | Throw e => Throw e
                    end, w');
     saveMeta := fun meta =>
       as_adapter (context_saveMeta drive_put stringify options meta);
     onExpire := Some (fun meta =>
       as_adapter (context_onExpire drive_del drive_exists options meta)) |}.

(** The state in which [createHyperdriveEphemeralGC(drive, options)]
    leaves a drive [d]: its clock is created, nothing else is done. *)
Definition createHyperdriveEphemeralGC (d : D) : HyperdriveWorld :=
  let (created, d') := Date_now d in
  {| hw_drive := d'; hw_effects := []; hw_warnings := [];
     hw_clock := createMonotonicNow
                   {| maxBackwardsMs := None; maxForwardMs := None |}
                   created |}.

(** The [runOnce] member of the setup. *)
Definition runOnce (loadTime : Z) (options : HyperdriveEphemeralOptions)
    : M (GCState HyperdriveWorld) EphemeralGCResult :=
  runEphemeralGC loadTime (createHyperdriveEphemeralContext options)
    {| nowFn := clock_nowFn |}.
End HyperdriveGcJs.

Arguments HyperdriveWorld D Buf : clear implicits.

(** ** Notions and samples for the complete setup *)

(** An effect of a deletion that found nothing wrong with the record: no
    write and no warning about its id. *)
Definition regular_deletion {Buf} (e : Effect Buf) : Prop :=
  match e with
  | DrivePut _ _ => False
  | ConsoleWarn (WarnInvalidMetaId _) => False
  | _ => True
  end.

(** [hw_effects] has grown by effects that satisfy [P]; the rest of the
    state may have changed. *)
Definition effects_grow {D Buf} (P : Effect Buf -> Prop)
    (w w' : HyperdriveWorld D Buf) : Prop :=
  exists es, hw_effects w' = hw_effects w ++ es /\ Forall P es.

(** An in-memory drive that holds records: [get] finds what [put]
    stored, buffers are the records themselves, and the directory has
    the given names. *)
Definition mem_get {Buf} (path : jsstring)
    : M (gmap jsstring Buf) (option Buf) :=
  d <- get ;; ret (d !! path).

Definition mem_readdir {Buf} (names : list jsstring)
    : jsstring -> gmap jsstring Buf ->
      option (list DirEntry * option error) * gmap jsstring Buf :=
  fun _ d => (Some (map EntryString names, None), d).

Definition wall_clock_at {D} (t : Z) : D -> Z * D := fun d => (t, d).

(** The conversion to a string, on the strings that the samples use. *)
Definition ToString_on_strings (v : value) : jsstring :=
  match v with
  | VStr s => s
  | _ => []
  end.

Definition sample_listing (names : list jsstring)
    : jsstring -> value -> M (ListingState (gmap jsstring EphemeralMeta))
                             (list EphemeralMeta) :=
  listMetasFromHyperdrive (Some (mem_readdir names)) mem_get
    (wall_clock_at 5000) (fun _ => 100) (fun meta => Ok (Some meta))
    ToString_on_strings.

Definition sample_runOnce (names : list jsstring) (files : list value)
    : M (GCState (HyperdriveWorld (gmap jsstring EphemeralMeta) EphemeralMeta))
        EphemeralGCResult :=
  runOnce mem_put mem_del (Some mem_exists) (Some (mem_readdir names))
    mem_get (wall_clock_at 5000) (fun meta => meta) (fun _ => 100)
    (fun meta => Ok (Some meta)) ToString_on_strings 0
    {| prefix := str "/sessions"; metaFile := None; filesToDelete := files |}.

(** A setup just created at the reading 5000 on a drive that holds the
    record [s1], which expires at 4000. *)
Definition sample_setup
    : GCState (HyperdriveWorld (gmap jsstring EphemeralMeta) EphemeralMeta) :=
  {| world := createHyperdriveEphemeralGC (wall_clock_at 5000)
                {[ str "/sessions/s1/meta.json"
                   := record "s1" (VNum (Finite 4000)) ]};
     calls := [] |}.

(** * Properties *)

(** ** The expiry predicates *)

Lemma validateTimestamp_bounds (loadTime e : Z) (field : string) :
  validateTimestamp (VNum (Finite e)) field 0 (MAX_TIMESTAMP loadTime)
  = (0 <=? e) && (e <=? MAX_TIMESTAMP loadTime).
Proof.
  unfold validateTimestamp; simpl.
  destruct (Z.ltb_spec e 0), (Z.ltb_spec (MAX_TIMESTAMP loadTime) e),
    (Z.leb_spec 0 e), (Z.leb_spec e (MAX_TIMESTAMP loadTime));
    simpl; try reflexivity; lia.
Qed.

Lemma isExpired_finite_now (loadTime : Z) (m : EphemeralMeta) (n : Z) :
  isExpired loadTime (Some m) (VNum (Finite n)) = Ok (due loadTime n m).
Proof.
  unfold isExpired, due; simpl.
  destruct (expiresAt m) as [| | b | [e | | |] | s |] eqn:He;
    simpl; try reflexivity.
  rewrite validateTimestamp_bounds.
  destruct ((0 <=? e) && (e <=? MAX_TIMESTAMP loadTime)); reflexivity.
Qed.

Lemma isUnlocked_finite_now (loadTime : Z) (m : EphemeralMeta) (n : Z) :
  isUnlocked loadTime (Some m) (VNum (Finite n))
  = Ok (match unlockAt m with
        | VNum (Finite u) =>
            negb ((0 <=? u) && (u <=? MAX_TIMESTAMP loadTime)) || (u <=? n)
        | _ => true
        end).
Proof.
  unfold isUnlocked; simpl.
  destruct (unlockAt m) as [| | b | [u | | |] | s |] eqn:Hu;
    simpl; try reflexivity.
  rewrite validateTimestamp_bounds.
  destruct ((0 <=? u) && (u <=? MAX_TIMESTAMP loadTime)); reflexivity.
Qed.

Lemma validateTimestamp_false_not_due (loadTime : Z) (m : EphemeralMeta) (n : Z) :
  validateTimestamp (expiresAt m) "expiresAt" 0 (MAX_TIMESTAMP loadTime) = false ->
  due loadTime n m = false.
Proof.
  unfold due. destruct (expiresAt m) as [| | b | [e | | |] | s |];
    try reflexivity.
  rewrite validateTimestamp_bounds. intros ->. reflexivity.
Qed.

(** C4. For a timestamp [T] that passes the bounds validation, a record
    with [expiresAt = T] is expired at [now = T] and not at [now = T - 1],
    and a record with [unlockAt = T] is unlocked at [now = T] and not at
    [now = T - 1]; [isExpired] is false whenever [expiresAt] is absent or
    fails the validation, and true whenever the record itself is absent. *)
Theorem expiry_inclusive_bound (loadTime T : Z)
    (HT : validateTimestamp (VNum (Finite T)) "expiresAt" 0
            (MAX_TIMESTAMP loadTime) = true) :
  (forall m, expiresAt m = VNum (Finite T) ->
     isExpired loadTime (Some m) (VNum (Finite T)) = Ok true /\
     isExpired loadTime (Some m) (VNum (Finite (T - 1))) = Ok false) /\
  (forall m, unlockAt m = VNum (Finite T) ->
     isUnlocked loadTime (Some m) (VNum (Finite T)) = Ok true /\
     isUnlocked loadTime (Some m) (VNum (Finite (T - 1))) = Ok false) /\
  (forall m n,
     validateTimestamp (expiresAt m) "expiresAt" 0 (MAX_TIMESTAMP loadTime)
       = false ->
     isExpired loadTime (Some m) (VNum (Finite n)) = Ok false) /\
  (forall now, isExpired loadTime None now = Ok true).
Proof.
  rewrite validateTimestamp_bounds in HT.
  repeat split.
  - rewrite isExpired_finite_now. unfold due. rewrite H, HT.
    rewrite Z.leb_refl. reflexivity.
  - rewrite isExpired_finite_now. unfold due. rewrite H, HT. simpl.
    f_equal. apply Z.leb_gt. lia.
  - rewrite isUnlocked_finite_now, H, HT, Z.leb_refl. reflexivity.
  - rewrite isUnlocked_finite_now, H, HT. simpl.
    f_equal. apply Z.leb_gt. lia.
  - intros m n Hbad. rewrite isExpired_finite_now.
    f_equal. now apply validateTimestamp_false_not_due.
Qed.

Lemma expiry_inclusive_bound_witness :
  isExpired 1700000000000
    (Some {| id := VStr (str "s1"); createdAt := VNum (Finite 1700000000000);
             updatedAt := VNum (Finite 1700000000000);
             unlockAt := VUndefined;
             expiresAt := VNum (Finite 1700000001000) |})
    (VNum (Finite 1700000001000)) = Ok true.
Proof.
  apply (expiry_inclusive_bound 1700000000000 1700000001000); reflexivity.
Defined.

(** C5, as amended. For every record that is present and every [now] that
    is not a finite number, [isExpired] and [isUnlocked] throw their
    invalid-argument error; for an absent record they return [true] and
    [false] without looking at [now]. *)
Theorem expiry_rejects_invalid_now (loadTime : Z) (m : EphemeralMeta) (now : value)
    (Hnow : isFinite now = false) :
  isExpired loadTime (Some m) now = Throw ERR_isExpired_now /\
  isUnlocked loadTime (Some m) now = Throw ERR_isUnlocked_now /\
  InvalidArgument ERR_isExpired_now /\ InvalidArgument ERR_isUnlocked_now /\
  isExpired loadTime None now = Ok true /\
  isUnlocked loadTime None now = Ok false.
Proof.
  unfold isExpired, isUnlocked, InvalidArgument.
  rewrite Hnow, orb_true_r. auto 10.
Qed.

Lemma expiry_rejects_invalid_now_witness :
  isExpired 0
    (Some {| id := VStr (str "s1"); createdAt := VNum (Finite 1);
             updatedAt := VNum (Finite 1); unlockAt := VUndefined;
             expiresAt := VNum (Finite 2) |}) (VNum NaN)
  = Throw ERR_isExpired_now.
Proof.
  apply (expiry_rejects_invalid_now 0 _ (VNum NaN)). reflexivity.
Defined.

(** C5 fails for an absent record: the predicates return before they
    look at [now]. *)
Lemma absent_record_invalid_now_returns :
  isExpired 0 None (VNum NaN) = Ok true /\
  isUnlocked 0 None (VNum NaN) = Ok false /\
  isExpired 0 None VUndefined = Ok true /\
  isUnlocked 0 None VUndefined = Ok false.
Proof. repeat split. Qed.

(** ** One run of the collector *)

Section GcFacts.
Variable loadTime : Z.
Context {W : Type}.
Implicit Types (ctx : EphemeralGCContext W) (s : GCState W).
Implicit Types (metas pre post : list (option EphemeralMeta)).

Lemma gc_loop_cons ctx now m metas k s :
  gc_loop loadTime ctx now (Some m :: metas) k s =
  match isExpired loadTime (Some m) now with
  | Throw e => (Throw e, s)
  | Ok false => gc_loop loadTime ctx now metas k s
  | Ok true =>
      match await_onExpire ctx m s with
      | (Ok _, s') => gc_loop loadTime ctx now metas (S k) s'
      | (Throw e, s') => (Throw e, s')
      end
  end.
Proof.
  cbn [gc_loop]. unfold bind, settled.
  destruct (isExpired loadTime (Some m) now) as [[|] | e]; reflexivity.
Qed.

Lemma gc_loop_app ctx now pre post k s :
  gc_loop loadTime ctx now (pre ++ post) k s =
  match gc_loop loadTime ctx now pre k s with
  | (Ok k', s') => gc_loop loadTime ctx now post k' s'
  | (Throw e, s') => (Throw e, s')
  end.
Proof.
  revert k s. induction pre as [| [m |] pre IH]; intros k s.
  - reflexivity.
  - rewrite <- app_comm_cons, !gc_loop_cons.
    destruct (isExpired loadTime (Some m) now) as [[|] | e];
      [| apply IH | reflexivity].
    destruct (await_onExpire ctx m s) as [[u | e] s1];
      [apply IH | reflexivity].
  - apply IH.
Qed.

Lemma gc_loop_ext ctx ctx' now metas k s :
  onExpire ctx' = onExpire ctx ->
  gc_loop loadTime ctx' now metas k s = gc_loop loadTime ctx now metas k s.
Proof.
  intros Hcb. revert k s.
  induction metas as [| [m |] metas IH]; intros k s.
  - reflexivity.
  - rewrite !gc_loop_cons.
    destruct (isExpired loadTime (Some m) now) as [[|] | e];
      [| apply IH | reflexivity].
    unfold await_onExpire. rewrite Hcb.
    destruct (match onExpire ctx with
              | Some cb => call_onExpire cb m
              | None => ret tt
              end s) as [[u | e] s1]; [apply IH | reflexivity].
  - apply IH.
Qed.

(** A record that is not due leaves the loop as it found it. *)
Lemma gc_loop_skip ctx n m metas k s :
  due loadTime n m = false ->
  gc_loop loadTime ctx (VNum (Finite n)) (Some m :: metas) k s =
  gc_loop loadTime ctx (VNum (Finite n)) metas k s.
Proof.
  intros Hdue. now rewrite gc_loop_cons, isExpired_finite_now, Hdue.
Qed.

Lemma due_records_cons n m metas :
  due_records loadTime n (Some m :: metas) =
  if due loadTime n m then m :: due_records loadTime n metas
  else due_records loadTime n metas.
Proof. reflexivity. Qed.

(** With a callback that never fails the loop visits the due records in
    order and counts them. *)
Lemma gc_loop_succeeds ctx cb n metas k s :
  onExpire ctx = Some cb ->
  (forall m w, fst (cb m w) = Ok tt) ->
  exists s',
    gc_loop loadTime ctx (VNum (Finite n)) metas k s
    = (Ok (k + length (due_records loadTime n metas))%nat, s') /\
    calls s' = calls s ++ due_records loadTime n metas.
Proof.
  intros Hcb Hok. revert k s.
  induction metas as [| [m |] metas IH]; intros k s.
  - exists s. simpl. unfold ret. rewrite Nat.add_0_r, app_nil_r. auto.
  - rewrite due_records_cons. destruct (due loadTime n m) eqn:Hdue.
    + rewrite gc_loop_cons, isExpired_finite_now, Hdue.
      unfold await_onExpire. rewrite Hcb. unfold call_onExpire.
      specialize (Hok m (world s)).
      destruct (cb m (world s)) as [r w'] eqn:Hr. simpl in Hok. subst r.
      destruct (IH (S k) {| world := w'; calls := calls s ++ [m] |})
        as (s' & Hrun & Hcalls).
      exists s'. rewrite Hrun.
      split; [f_equal; f_equal; simpl; lia |].
      rewrite Hcalls. simpl. now rewrite <- app_assoc.
    + rewrite gc_loop_skip by assumption. apply IH.
  - apply IH.
Qed.

Lemma runEphemeralGC_unfold ctx options s now w1 metas w2 :
  nowFn options (world s) = (Ok now, w1) ->
  normalizeList (listMetas ctx) w1 = (Ok metas, w2) ->
  runEphemeralGC loadTime ctx options s =
  match gc_loop loadTime ctx now metas 0
          {| world := w2; calls := calls s |} with
  | (Ok k, s') => (Ok {| expired := k |}, s')
  | (Throw e, s') => (Throw e, s')
  end.
Proof.
  intros Hnow Hlist. unfold runEphemeralGC, bind, in_world.
  rewrite Hnow. simpl. rewrite Hlist.
  destruct (gc_loop _ _ _ _ _ _) as [[k | e] s']; reflexivity.
Qed.

Lemma due_records_In n metas m :
  In m (due_records loadTime n metas) <->
  In (Some m) metas /\ due loadTime n m = true.
Proof.
  unfold due_records, present. rewrite filter_In.
  rewrite <- !list_elem_of_In, list_elem_of_omap.
  split.
  - intros [(x & Hx & ->) Hd]. auto.
  - intros [Hx Hd]. split; [exists (Some m) |]; auto.
Qed.

Lemma due_records_NoDup n metas :
  List.NoDup (present metas) -> List.NoDup (due_records loadTime n metas).
Proof. apply List.NoDup_filter. Qed.
(** C3, as amended. When the captured [now] is finite and the callback
    always succeeds, the run returns as [expired] the number [N] of listed
    records whose [expiresAt] is a number within the validation bounds and
    at or before [now], and calls the callback exactly on those records,
    once per list entry and in list order; null entries and all other
    records are passed over, and an empty listing gives [expired = 0] and
    no call. *)
Theorem runEphemeralGC_counts_due ctx options cb s n w1 metas w2 :
  nowFn options (world s) = (Ok (VNum (Finite n)), w1) ->
  normalizeList (listMetas ctx) w1 = (Ok metas, w2) ->
  onExpire ctx = Some cb ->
  (forall m w, fst (cb m w) = Ok tt) ->
  exists s',
    runEphemeralGC loadTime ctx options s
    = (Ok {| expired := length (due_records loadTime n metas) |}, s') /\
    calls s' = calls s ++ due_records loadTime n metas /\
    (forall m, In m (due_records loadTime n metas) <->
               In (Some m) metas /\ due loadTime n m = true) /\
    (List.NoDup (present metas) ->
     List.NoDup (due_records loadTime n metas)) /\
    (metas = [] ->
     runEphemeralGC loadTime ctx options s = (Ok {| expired := 0 |}, s') /\
     calls s' = calls s).
Proof.
  intros Hnow Hlist Hcb Hok.
  destruct (gc_loop_succeeds ctx cb n metas 0
              {| world := w2; calls := calls s |} Hcb Hok)
    as (s' & Hrun & Hcalls).
  exists s'. rewrite (runEphemeralGC_unfold _ _ _ _ _ _ _ Hnow Hlist), Hrun.
  simpl in Hcalls.
  split; [reflexivity |]. split; [exact Hcalls |].
  split; [intros m; apply due_records_In |].
  split; [apply due_records_NoDup |].
  intros ->. split; [reflexivity |].
  rewrite Hcalls. apply app_nil_r.
Qed.


(** C9. The upper bound of the timestamp validation is the time of
    module load plus 100 years of 365 days. A record whose [expiresAt] is
    a finite number above it is not expired at any finite [now], and a run
    over a listing that contains it does exactly what the run over the
    listing without it does. *)
Theorem expiresAt_above_load_bound_never_expires
    (m : EphemeralMeta) (e : Z) :
  expiresAt m = VNum (Finite e) ->
  MAX_TIMESTAMP loadTime < e ->
  MAX_TIMESTAMP loadTime = loadTime + 100 * 365 * 24 * 60 * 60 * 1000 /\
  (forall n, isExpired loadTime (Some m) (VNum (Finite n)) = Ok false) /\
  (forall ctx ctx' options s n w1 pre post w2,
     nowFn options (world s) = (Ok (VNum (Finite n)), w1) ->
     normalizeList (listMetas ctx) w1 = (Ok (pre ++ Some m :: post), w2) ->
     normalizeList (listMetas ctx') w1 = (Ok (pre ++ post), w2) ->
     onExpire ctx' = onExpire ctx ->
     runEphemeralGC loadTime ctx options s
     = runEphemeralGC loadTime ctx' options s).
Proof.
  intros He Hbig.
  assert (Hdue : forall n, due loadTime n m = false).
  { intros n. unfold due. rewrite He.
    replace (e <=? MAX_TIMESTAMP loadTime) with false
      by (symmetry; apply Z.leb_gt; lia).
    now rewrite andb_false_r. }
  split; [reflexivity |]. split.
  - intros n. now rewrite isExpired_finite_now, Hdue.
  - intros ctx ctx' options s n w1 pre post w2 Hnow Hl Hl' Hcb.
    rewrite (runEphemeralGC_unfold _ _ _ _ _ _ _ Hnow Hl).
    rewrite (runEphemeralGC_unfold _ _ _ _ _ _ _ Hnow Hl').
    rewrite !gc_loop_app.
    rewrite (gc_loop_ext ctx ctx' _ pre) by assumption.
    destruct (gc_loop loadTime ctx (VNum (Finite n)) pre 0 _)
      as [[k | err] s1]; [| reflexivity].
    rewrite gc_loop_skip by apply Hdue.
    now rewrite (gc_loop_ext ctx ctx' _ post) by assumption.
Qed.
End GcFacts.

Lemma runEphemeralGC_counts_due_witness :
  exists s',
    runEphemeralGC 5000
      (listing_ctx [Some (record "keep" VUndefined);
                    None;
                    Some (record "expire1" (VNum (Finite 4000)));
                    Some (record "later" (VNum (Finite 9000)));
                    Some (record "expire2" (VNum (Finite 3000)))]
         (Some succeeding_callback))
      (fixed_now 5000) fresh_run
    = (Ok {| expired := 2 |}, s') /\
    calls s' = [record "expire1" (VNum (Finite 4000));
                record "expire2" (VNum (Finite 3000))].
Proof.
  destruct (runEphemeralGC_counts_due 5000
              (listing_ctx [Some (record "keep" VUndefined);
                            None;
                            Some (record "expire1" (VNum (Finite 4000)));
                            Some (record "later" (VNum (Finite 9000)));
                            Some (record "expire2" (VNum (Finite 3000)))]
                 (Some succeeding_callback))
              (fixed_now 5000) succeeding_callback fresh_run 5000 tt _ tt
              eq_refl eq_refl eq_refl (fun _ _ => eq_refl))
    as (s' & Hrun & Hcalls & _).
  exists s'. split; [exact Hrun | exact Hcalls].
Defined.

(** C3 fails for a record whose [expiresAt] lies in the past of [now] but
    outside the validation bounds: it is passed over. It also fails when
    the captured [now] is not finite and a record is listed: the run
    rejects. *)
Lemma runEphemeralGC_past_but_out_of_bounds :
  let beyond := record "beyond" (VNum (Finite 4853600000001)) in
  let negative := record "negative" (VNum (Finite (-1))) in
  let now := 4853600000002 in
  past_expiresAt now beyond = true /\
  past_expiresAt now negative = true /\
  runEphemeralGC 1700000000000
    (listing_ctx [Some beyond; Some negative] (Some succeeding_callback))
    (fixed_now now) fresh_run
  = (Ok {| expired := 0 |}, fresh_run) /\
  runEphemeralGC 1700000000000
    (listing_ctx [Some (record "keep" VUndefined)] (Some succeeding_callback))
    nan_now fresh_run
  = (Throw ERR_isExpired_now, fresh_run).
Proof. repeat split. Qed.



Lemma expiresAt_above_load_bound_never_expires_witness :
  isExpired 1700000000000
    (Some (record "beyond" (VNum (Finite 4853600000001))))
    (VNum (Finite 9999999999999)) = Ok false.
Proof.
  apply (expiresAt_above_load_bound_never_expires 1700000000000 (W := unit)
           (record "beyond" (VNum (Finite 4853600000001)))
           4853600000001 eq_refl).
  reflexivity.
Defined.


(** ** The monotonic clock *)

Lemma now_step (c : Clock) (current : Z) :
  last c <= ceiling c ->
  last c <= fst (now c current) <= ceiling c /\
  last (snd (now c current)) = fst (now c current) /\
  ceiling (snd (now c current)) = ceiling c.
Proof.
  unfold ceiling, now. intros Hinv.
  destruct (Z.gtb_spec current (startTime c + clock_maxForwardMs c)).
  { simpl. lia. }
  destruct (Z.ltb_spec (current + clock_maxBackwardsMs c) (last c)).
  { simpl. lia. }
  destruct (Z.geb_spec current (last c)); simpl; lia.
Qed.

Lemma now_calls_from (readings : list Z) (c : Clock) :
  last c <= ceiling c ->
  Forall (fun v => last c <= v <= ceiling c) (now_calls c readings) /\
  StronglySorted Z.le (now_calls c readings).
Proof.
  revert c. induction readings as [| current rest IH]; intros c Hinv; simpl.
  - split; constructor.
  - destruct (now_step c current Hinv) as (Hv & Hlast & Hceil).
    destruct (now c current) as [v c'] eqn:Hnow. simpl in *.
    destruct (IH c') as (Hall & Hsorted); [lia |].
    rewrite Hlast, Hceil in Hall.
    split.
    + constructor; [lia |].
      eapply List.Forall_impl; [| exact Hall]. simpl. intros; lia.
    + constructor; [exact Hsorted |].
      eapply List.Forall_impl; [| exact Hall]. simpl. intros; lia.
Qed.

(** C2, as amended. For every clock instance created with a
    [maxForwardMs] that is not negative and every sequence of wall-clock
    readings, the values returned by successive calls are non-decreasing
    and each is at most [startTime + maxForwardMs]. *)
Theorem monotonic_clock_nondecreasing_and_bounded
    (options : ClockOptions) (dateNow : Z) (readings : list Z) :
  0 <= default (60 * 60 * 1000) (maxForwardMs options) ->
  StronglySorted Z.le
    (now_calls (createMonotonicNow options dateNow) readings) /\
  Forall (fun v => v <= dateNow + default (60 * 60 * 1000)
                                    (maxForwardMs options))
    (now_calls (createMonotonicNow options dateNow) readings).
Proof.
  intros Hforward.
  destruct (now_calls_from readings (createMonotonicNow options dateNow))
    as (Hall & Hsorted).
  { unfold ceiling. simpl. lia. }
  split; [exact Hsorted |].
  eapply List.Forall_impl; [| exact Hall].
  unfold ceiling. simpl. intros; lia.
Qed.

Lemma monotonic_clock_nondecreasing_and_bounded_witness :
  StronglySorted Z.le
    (now_calls (createMonotonicNow
                  {| maxBackwardsMs := Some 100; maxForwardMs := None |} 1000)
       [1000; 950; 1100; 9000000; 500]) /\
  Forall (fun v => v <= 1000 + 3600000)
    (now_calls (createMonotonicNow
                  {| maxBackwardsMs := Some 100; maxForwardMs := None |} 1000)
       [1000; 950; 1100; 9000000; 500]).
Proof.
  apply (monotonic_clock_nondecreasing_and_bounded
           {| maxBackwardsMs := Some 100; maxForwardMs := None |} 1000
           [1000; 950; 1100; 9000000; 500]).
  simpl. lia.
Defined.

(** C2 fails for an instance created with a negative [maxForwardMs]: after
    a backward jump of the wall clock the instance returns [last], which is
    above the ceiling, and at the next reading above the ceiling it falls
    back to the ceiling. *)
Lemma negative_maxForwardMs_clock_goes_back :
  let c := createMonotonicNow
             {| maxBackwardsMs := None; maxForwardMs := Some (-10) |} 100 in
  now_calls c [50; 100] = [100; 90] /\
  startTime c + clock_maxForwardMs c = 90 /\
  ~ StronglySorted Z.le (now_calls c [50; 100]) /\
  ~ Forall (fun v => v <= startTime c + clock_maxForwardMs c)
      (now_calls c [50; 100]).
Proof.
  simpl. split; [reflexivity |]. split; [reflexivity |]. split.
  - intros Hs. inversion Hs as [| ? ? _ Hall]; subst.
    inversion Hall as [| ? ? Hle _]; subst. vm_compute in Hle. now apply Hle.
  - intros Hall. inversion Hall as [| ? ? Hle _]; subst.
    vm_compute in Hle. now apply Hle.
Qed.

(** ** The scheduler *)

Lemma stop_stops (a : AutoGC) :
  fst (stop a) = Ok tt /\ isRunning (snd (stop a)) = false /\
  consecutiveErrors (snd (stop a)) = consecutiveErrors a.
Proof. unfold stop, bind, get, isRunning. destruct a as [[t |] n c]; auto. Qed.

Lemma tick_settle_fulfilled (v : EphemeralGCResult) (a : AutoGC) :
  tick_settle (Ok v) a = (Ok tt, set_consecutiveErrors 0 a).
Proof. reflexivity. Qed.

Lemma tick_settle_rejected (e : error) (a : AutoGC) :
  fst (tick_settle (Throw e) a) = Ok tt /\
  consecutiveErrors (snd (tick_settle (Throw e) a))
  = S (consecutiveErrors a) /\
  isRunning (snd (tick_settle (Throw e) a))
  = isRunning a && (S (consecutiveErrors a) <? MAX_CONSECUTIVE_ERRORS)%nat.
Proof.
  unfold tick_settle, try_catch, bind at 1, settled.
  unfold tick_catch, bind, modify, get. cbn [consecutiveErrors set_consecutiveErrors log].
  destruct (Nat.leb_spec MAX_CONSECUTIVE_ERRORS (S (consecutiveErrors a)))
    as [Hge | Hlt].
  - replace (S (consecutiveErrors a) <? MAX_CONSECUTIVE_ERRORS)%nat
      with false by (symmetry; apply Nat.ltb_ge; lia).
    rewrite andb_false_r.
    destruct a as [[t |] n c]; simpl; auto.
  - replace (S (consecutiveErrors a) <? MAX_CONSECUTIVE_ERRORS)%nat
      with true by (symmetry; apply Nat.ltb_lt; lia).
    rewrite andb_true_r.
    destruct a as [[t |] n c]; simpl; auto.
Qed.

Section GcListingFails.
Variable loadTime : Z.
Context {W : Type}.
Variable ctx : EphemeralGCContext W.
Variable options : GCOptions W.

Lemma runEphemeralGC_listing_fails (g : GCState W) now w1 e w2 :
  nowFn options (world g) = (Ok now, w1) ->
  normalizeList (listMetas ctx) w1 = (Throw e, w2) ->
  runEphemeralGC loadTime ctx options g
  = (Throw e, {| world := w2; calls := calls g |}).
Proof.
  intros Hnow Hlist. unfold runEphemeralGC, bind, in_world.
  rewrite Hnow. simpl. now rewrite Hlist.
Qed.
End GcListingFails.














(** ** Identifiers and path components *)

Lemma id_class_existsb (c : N) :
  id_class c = existsb (N.eqb c) id_alphabet.
Proof.
  destruct (N.ltb_spec c 123) as [Hlt | Hge].
  - assert (Hall : forallb
                     (fun x => Bool.eqb (id_class x)
                                 (existsb (N.eqb x) id_alphabet))
                     (map N.of_nat (seq 0 123)) = true)
      by (vm_compute; reflexivity).
    rewrite forallb_forall in Hall.
    apply eqb_prop, Hall, in_map_iff.
    exists (N.to_nat c). split; [lia | apply in_seq; lia].
  - assert (Hsmall : forallb (fun x => (x <? 123)%N) id_alphabet = true)
      by (vm_compute; reflexivity).
    rewrite forallb_forall in Hsmall.
    transitivity false.
    + unfold id_class.
      repeat match goal with
             | |- context [(?a <=? ?b)%N] => destruct (N.leb_spec a b)
             | |- context [(?a =? ?b)%N] => destruct (N.eqb_spec a b)
             end; simpl; try reflexivity; lia.
    + symmetry. apply not_true_is_false. intros Hex.
      apply existsb_exists in Hex as (x & Hin & Heq).
      apply N.eqb_eq in Heq. subst x.
      apply Hsmall, N.ltb_lt in Hin. lia.
Qed.

Lemma id_class_alphabet (c : N) : id_class c = true <-> In c id_alphabet.
Proof.
  rewrite id_class_existsb, existsb_exists. split.
  - intros (x & Hin & Heq). apply N.eqb_eq in Heq. now subst.
  - intros Hin. exists c. split; [assumption | apply N.eqb_refl].
Qed.

Lemma regex_class_star_end_Forall (s : jsstring) :
  regex_class_star_end s = true <-> Forall (fun c => In c id_alphabet) s.
Proof.
  induction s as [| c s IH]; simpl.
  - split; [constructor | reflexivity].
  - rewrite andb_true_iff, IH, id_class_alphabet. split.
    + intros [Hc Hs]. now constructor.
    + intros H. inversion H; subst. auto.
Qed.

Lemma regex_id_test_Forall (s : jsstring) :
  regex_id_test s = true <->
  s <> [] /\ Forall (fun c => In c id_alphabet) s.
Proof.
  destruct s as [| c s]; simpl.
  - split; [discriminate | intros [H _]; congruence].
  - change (id_class c && regex_class_star_end s)
      with (regex_class_star_end (c :: s)).
    rewrite regex_class_star_end_Forall. split; [split; [discriminate |] |];
      tauto.
Qed.

Lemma validateMetaId_string (s : jsstring) :
  validateMetaId (VStr s) = true <->
  (1 <= length s <= 255)%nat /\ Forall (fun c => In c id_alphabet) s.
Proof.
  unfold validateMetaId.
  destruct (Nat.eqb_spec (length s) 0) as [H0 | H0]; simpl.
  { split; [discriminate | intros [H _]; lia]. }
  destruct (Nat.ltb_spec 255 (length s)) as [Hlong | Hlen]; simpl.
  { split; [discriminate | intros [H _]; lia]. }
  destruct (regex_id_test s) eqn:Hre; simpl.
  - apply regex_id_test_Forall in Hre as [_ Hall].
    split; [intros _; split; [lia | assumption] | reflexivity].
  - split; [discriminate |]. intros [_ Hall].
    assert (regex_id_test s = true); [| congruence].
    apply regex_id_test_Forall. split; [| assumption].
    intros ->. simpl in H0. lia.
Qed.

Lemma includes_In (s p : jsstring) (c : N) :
  includes s (c :: p) = true -> In c s.
Proof.
  induction s as [| b s IH]; simpl.
  - discriminate.
  - rewrite orb_true_iff, andb_true_iff. intros [[Heq _] | Hrest].
    + left. apply N.eqb_eq in Heq. now subst.
    + right. now apply IH.
Qed.

Lemma validateMetaId_outside_class (s : jsstring) (c : N) :
  In c s -> id_class c = false -> validateMetaId (VStr s) = false.
Proof.
  intros Hin Hc. apply not_true_is_false. intros Hvalid.
  apply validateMetaId_string in Hvalid as [_ Hall].
  rewrite List.Forall_forall in Hall.
  apply Hall, id_class_alphabet in Hin. congruence.
Qed.

Lemma valid_id_excludes (s p : jsstring) (c : N) :
  validateMetaId (VStr s) = true -> id_class c = false ->
  includes s (c :: p) = false.
Proof.
  intros Hvalid Hc. apply not_true_is_false. intros Hinc.
  apply includes_In in Hinc.
  rewrite (validateMetaId_outside_class s c Hinc Hc) in Hvalid. discriminate.
Qed.

(** An identifier of the valid format is a path component as it stands. *)
Lemma validateMetaId_sanitize (s : jsstring) :
  validateMetaId (VStr s) = true -> sanitizePathComponent (VStr s) = Some s.
Proof.
  intros Hvalid. unfold sanitizePathComponent.
  change (str "..") with [46%N; 46%N]. change (str "/") with [47%N].
  change (str "\") with [92%N].
  rewrite !(valid_id_excludes s _ _ Hvalid) by reflexivity. simpl.
  apply validateMetaId_string in Hvalid as [Hlen _].
  destruct (Nat.eqb_spec (length s) 0); [lia |].
  destruct (Nat.ltb_spec 255 (length s)); [lia |]. reflexivity.
Qed.

(** C8. [validateMetaId(id)] is true exactly when [id] is a string of 1
    to 255 characters, all of them among [A-Za-z0-9_-]; so it rejects the
    empty string, every string of 256 characters and every string that
    contains [..], [/], a backslash or white space. *)
Theorem validateMetaId_iff (v : value) :
  (validateMetaId v = true <->
   exists s, v = VStr s /\ (1 <= length s <= 255)%nat /\
             Forall (fun c => In c id_alphabet) s) /\
  validateMetaId (VStr []) = false /\
  (forall s, length s = 256%nat -> validateMetaId (VStr s) = false) /\
  (forall s,
     includes s (str "..") = true \/ includes s (str "/") = true \/
     includes s (str "\") = true \/ Exists (fun c => In c whitespace) s ->
     validateMetaId (VStr s) = false).
Proof.
  split; [| split; [reflexivity | split]].
  - split.
    + destruct v as [| | b | n | s |]; try discriminate.
      intros Hvalid. exists s. split; [reflexivity |].
      now apply validateMetaId_string.
    + intros (s & -> & Hs). now apply validateMetaId_string.
  - intros s Hlen. apply not_true_is_false. intros Hvalid.
    apply validateMetaId_string in Hvalid as [Hbound _]. lia.
  - intros s [Hinc | [Hinc | [Hinc | Hws]]].
    + apply includes_In in Hinc.
      now apply (validateMetaId_outside_class s _ Hinc).
    + apply includes_In in Hinc.
      now apply (validateMetaId_outside_class s _ Hinc).
    + apply includes_In in Hinc.
      now apply (validateMetaId_outside_class s _ Hinc).
    + apply List.Exists_exists in Hws as (c & Hin & Hc).
      apply (validateMetaId_outside_class s c Hin).
      assert (Hall : forallb (fun x => negb (id_class x)) whitespace = true)
        by (vm_compute; reflexivity).
      rewrite forallb_forall in Hall. apply Hall in Hc.
      now apply negb_true_iff in Hc.
Qed.

Lemma validateMetaId_iff_witness :
  validateMetaId (VStr (str "session-1")) = true /\
  validateMetaId (VStr (str "../etc/passwd")) = false /\
  validateMetaId (VStr (str "invalid id with spaces")) = false.
Proof.
  split; [| split].
  - apply (proj2 (proj1 (validateMetaId_iff (VStr (str "session-1"))))).
    exists (str "session-1"). split; [reflexivity |].
    split; [simpl; lia |].
    apply List.Forall_forall. intros c Hc. apply id_class_alphabet.
    simpl in Hc. repeat destruct Hc as [<- | Hc]; try reflexivity.
    contradiction.
  - apply (proj2 (proj2 (proj2 (validateMetaId_iff VUndefined)))).
    left. reflexivity.
  - apply (proj2 (proj2 (proj2 (validateMetaId_iff VUndefined)))).
    do 3 right. apply List.Exists_exists. exists 32%N.
    split; simpl; tauto.
Defined.

(** ** The write path and the expiration callback of the adapter *)

Section AdapterFacts.
Context {D Buf : Type}.
Variable drive_put : jsstring -> Buf -> M D unit.
Variable drive_del : jsstring -> M D (result unit).
Variable drive_exists : option (jsstring -> M D bool).
Variable stringify : EphemeralMeta -> Buf.
Implicit Types (s : AdapterState D Buf) (meta : EphemeralMeta).

Lemma sanitize_fails_id_invalid (v : value) :
  sanitizePathComponent v = None -> validateMetaId v = false.
Proof.
  intros Hnone. destruct v as [| | b | n | i |]; try reflexivity.
  destruct (validateMetaId (VStr i)) eqn:Hvalid; [| reflexivity].
  apply validateMetaId_sanitize in Hvalid. congruence.
Qed.

Lemma saveMeta_accepted (prefix i f : jsstring) (metaFile : value) meta s :
  id meta = VStr i ->
  validateMetaId (id meta) = true ->
  sanitizePathComponent metaFile = Some f ->
  saveMetaToHyperdrive drive_put stringify prefix metaFile meta s
  = (fst (drive_put (prefix ++ str "/" ++ i ++ str "/" ++ f)
            (stringify meta) (drive s)),
     {| drive := snd (drive_put (prefix ++ str "/" ++ i ++ str "/" ++ f)
                        (stringify meta) (drive s));
        effects := effects s
                   ++ [DrivePut (prefix ++ str "/" ++ i ++ str "/" ++ f)
                         (stringify meta)] |}).
Proof.
  intros Hi Hid Hfile. unfold saveMetaToHyperdrive. rewrite Hid. simpl.
  rewrite Hi in Hid |- *.
  rewrite (validateMetaId_sanitize i Hid), Hfile.
  unfold put, on_drive, slash.
  destruct (drive_put _ _ _) as [r d']. reflexivity.
Qed.

(** C7, as amended. [saveMeta] rejects with [InvalidId] and writes
    nothing when the record's id fails the id-format validation, which
    every id that fails sanitization does; otherwise it rejects with
    [InvalidMetaFile] and writes nothing when the meta-file name fails
    sanitization; otherwise its one action on the drive is the [put] of
    the serialized record at [prefix/id/metaFile]. *)
Theorem saveMeta_write_contract (prefix : jsstring) (metaFile : value)
    meta s :
  (sanitizePathComponent (id meta) = None ->
   validateMetaId (id meta) = false) /\
  (validateMetaId (id meta) = false ->
   exists e, InvalidId e /\
     saveMetaToHyperdrive drive_put stringify prefix metaFile meta s
     = (Throw e, s)) /\
  (validateMetaId (id meta) = true ->
   sanitizePathComponent metaFile = None ->
   exists e, InvalidMetaFile e /\
     saveMetaToHyperdrive drive_put stringify prefix metaFile meta s
     = (Throw e, s)) /\
  (forall i f,
     id meta = VStr i ->
     validateMetaId (id meta) = true ->
     sanitizePathComponent metaFile = Some f ->
     let path := prefix ++ str "/" ++ i ++ str "/" ++ f in
     saveMetaToHyperdrive drive_put stringify prefix metaFile meta s
     = (fst (drive_put path (stringify meta) (drive s)),
        {| drive := snd (drive_put path (stringify meta) (drive s));
           effects := effects s ++ [DrivePut path (stringify meta)] |})).
Proof.
  split; [apply sanitize_fails_id_invalid |].
  split; [| split].
  - unfold saveMetaToHyperdrive. intros ->.
    exists ERR_invalid_meta_id_format. split; [left |]; reflexivity.
  - unfold saveMetaToHyperdrive. intros Hid Hfile. rewrite Hid. simpl.
    destruct (id meta) as [| | b | n | i |] eqn:Hi; try discriminate.
    rewrite (validateMetaId_sanitize i Hid), Hfile.
    exists ERR_invalid_metaFile. split; reflexivity.
  - intros i f Hi Hid Hfile. now apply saveMeta_accepted.
Qed.

(** C10. For a record whose id fails the id-format validation the
    adapter's [onExpire] fulfils, leaves the drive as it was, calls no
    method of the drive and only emits the warning about the id. *)
Theorem onExpire_invalid_id_only_warns
    (options : HyperdriveEphemeralOptions) meta s :
  validateMetaId (id meta) = false ->
  context_onExpire drive_del drive_exists options meta s
  = (Ok tt,
     {| drive := drive s;
        effects := effects s ++ [ConsoleWarn (WarnInvalidMetaId (id meta))] |}).
Proof.
  intros Hid. unfold context_onExpire, deleteFilesFromHyperdrive.
  rewrite Hid. reflexivity.
Qed.
End AdapterFacts.

(** On the in-memory drive a record that passes both checks is found
    afterwards at its path. *)
Lemma saveMeta_memory_drive {Buf : Type} (stringify : EphemeralMeta -> Buf)
    (prefix i f : jsstring) (metaFile : value) (meta : EphemeralMeta)
    (s : AdapterState (gmap jsstring Buf) Buf) :
  id meta = VStr i ->
  validateMetaId (id meta) = true ->
  sanitizePathComponent metaFile = Some f ->
  fst (saveMetaToHyperdrive mem_put stringify prefix metaFile meta s) = Ok tt /\
  drive (snd (saveMetaToHyperdrive mem_put stringify prefix metaFile meta s))
    !! (prefix ++ str "/" ++ i ++ str "/" ++ f) = Some (stringify meta).
Proof.
  intros Hi Hid Hfile.
  rewrite (saveMeta_accepted mem_put stringify prefix i f metaFile meta s
             Hi Hid Hfile). simpl.
  split; [reflexivity | apply lookup_insert_eq].
Qed.

Lemma saveMeta_write_contract_witness :
  let s := {| drive := (∅ : gmap jsstring EphemeralMeta); effects := [] |} in
  let meta := record "s1" (VNum (Finite 9000)) in
  saveMetaToHyperdrive mem_put (fun m => m) (str "/sessions")
    (VStr (str "meta.json")) meta s
  = (Ok tt,
     {| drive := {[ str "/sessions/s1/meta.json" := meta ]};
        effects := [DrivePut (str "/sessions/s1/meta.json") meta] |}).
Proof.
  intros s meta.
  rewrite (proj2 (proj2 (proj2
             (saveMeta_write_contract mem_put (fun m => m) (str "/sessions")
                (VStr (str "meta.json")) meta s)))
             (str "s1") (str "meta.json") eq_refl eq_refl eq_refl).
  reflexivity.
Defined.

(** C7 fails for an id that passes sanitization but not the id-format
    validation: [saveMeta] rejects it and writes nothing. *)
Lemma saveMeta_rejects_sanitized_id :
  let s := {| drive := (∅ : gmap jsstring EphemeralMeta); effects := [] |} in
  let meta := record "invalid id with spaces" (VNum (Finite 9000)) in
  sanitizePathComponent (id meta) = Some (str "invalid id with spaces") /\
  sanitizePathComponent (VStr (str "meta.json")) = Some (str "meta.json") /\
  saveMetaToHyperdrive mem_put (fun m => m) (str "/sessions")
    (VStr (str "meta.json")) meta s
  = (Throw ERR_invalid_meta_id_format, s).
Proof. repeat split. Qed.

Lemma onExpire_invalid_id_only_warns_witness :
  let files : gmap jsstring nat := {[ str "/sessions/../etc/passwd" := 7%nat ]} in
  let options := {| prefix := str "/sessions"; metaFile := None;
                    filesToDelete := [VStr (str "passwd")] |} in
  let meta := record "../etc" (VNum (Finite 1)) in
  context_onExpire (Buf := nat) mem_del (Some mem_exists) options meta
    {| drive := files; effects := [] |}
  = (Ok tt,
     {| drive := files;
        effects := [ConsoleWarn (WarnInvalidMetaId (VStr (str "../etc")))] |}).
Proof.
  intros files options meta.
  apply (onExpire_invalid_id_only_warns (Buf := nat) mem_del
           (Some mem_exists) options meta
           {| drive := files; effects := [] |}).
  reflexivity.
Defined.

(** * Further properties *)

(** ** The clock as a capped running maximum *)

Lemma now_calls_app (c : Clock) (before after : list Z) :
  now_calls c (before ++ after)
  = now_calls c before ++ now_calls (clock_after c before) after.
Proof.
  revert c. induction before as [| r before IH]; intros c; simpl.
  - reflexivity.
  - destruct (now c r) as [v c'] eqn:Hnow. simpl. now rewrite IH.
Qed.

Lemma now_keeps_options (c : Clock) (current : Z) :
  clock_maxBackwardsMs (snd (now c current)) = clock_maxBackwardsMs c /\
  clock_maxForwardMs (snd (now c current)) = clock_maxForwardMs c /\
  startTime (snd (now c current)) = startTime c.
Proof.
  unfold now.
  destruct (current >? startTime c + clock_maxForwardMs c); [easy |].
  destruct (current + clock_maxBackwardsMs c <? last c); [easy |].
  destruct (current >=? last c); easy.
Qed.

Lemma now_capped_max (c : Clock) (current : Z) :
  0 <= clock_maxBackwardsMs c ->
  last c <= ceiling c ->
  fst (now c current) = Z.min (ceiling c) (Z.max (last c) current).
Proof.
  unfold ceiling, now. intros Hback Hinv.
  destruct (Z.gtb_spec current (startTime c + clock_maxForwardMs c)).
  { simpl. lia. }
  destruct (Z.ltb_spec (current + clock_maxBackwardsMs c) (last c)).
  { simpl. lia. }
  destruct (Z.geb_spec current (last c)); simpl; lia.
Qed.

Lemma now_calls_capped_max (readings : list Z) (c : Clock) :
  0 <= clock_maxBackwardsMs c ->
  last c <= ceiling c ->
  now_calls c readings = capped_running_max (ceiling c) (last c) readings.
Proof.
  revert c. induction readings as [| current rest IH]; intros c Hback Hinv.
  - reflexivity.
  - simpl. pose proof (now_capped_max c current Hback Hinv) as Hv.
    destruct (now_step c current Hinv) as (_ & Hlast & Hceil).
    destruct (now_keeps_options c current) as (Hb & _ & _).
    destruct (now c current) as [v c'] eqn:Hnow. simpl in *.
    rewrite IH by lia. rewrite Hlast, Hceil, Hv. reflexivity.
Qed.

(** X1. With options that are not negative, the values a clock instance
    returns are the running maximum of the wall-clock readings since its
    creation, capped at [startTime + maxForwardMs]. *)
Theorem monotonic_clock_is_capped_running_max
    (options : ClockOptions) (dateNow : Z) (readings : list Z) :
  0 <= default 1000 (maxBackwardsMs options) ->
  0 <= default (60 * 60 * 1000) (maxForwardMs options) ->
  now_calls (createMonotonicNow options dateNow) readings
  = capped_running_max
      (dateNow + default (60 * 60 * 1000) (maxForwardMs options))
      dateNow readings.
Proof.
  intros Hback Hforward.
  rewrite now_calls_capped_max; [reflexivity | exact Hback |].
  unfold ceiling. simpl. lia.
Qed.

Lemma monotonic_clock_is_capped_running_max_witness :
  now_calls (createMonotonicNow
               {| maxBackwardsMs := Some 100; maxForwardMs := None |} 1000)
    [1000; 950; 1100; 9000000; 500]
  = [1000; 1000; 1100; 3601000; 3601000].
Proof.
  rewrite (monotonic_clock_is_capped_running_max
             {| maxBackwardsMs := Some 100; maxForwardMs := None |} 1000
             [1000; 950; 1100; 9000000; 500]); [reflexivity | | ];
    simpl; lia.
Defined.

(** X2. The tolerance [maxBackwardsMs] has no effect on what a clock
    returns: two instances created at the same reading with the same
    [maxForwardMs] and any two tolerances that are not negative return the
    same values on the same readings. *)
Theorem maxBackwardsMs_is_unobservable
    (back back' forward : option Z) (dateNow : Z) (readings : list Z) :
  0 <= default 1000 back ->
  0 <= default 1000 back' ->
  0 <= default (60 * 60 * 1000) forward ->
  now_calls (createMonotonicNow
               {| maxBackwardsMs := back; maxForwardMs := forward |} dateNow)
    readings
  = now_calls (createMonotonicNow
                 {| maxBackwardsMs := back'; maxForwardMs := forward |}
                 dateNow)
      readings.
Proof.
  intros Hb Hb' Hf.
  rewrite !now_calls_capped_max; try assumption; try reflexivity;
    unfold ceiling; simpl; lia.
Qed.

Lemma maxBackwardsMs_is_unobservable_witness :
  now_calls (createMonotonicNow
               {| maxBackwardsMs := Some 0; maxForwardMs := None |} 1000)
    [990; 400; 1200]
  = now_calls (createMonotonicNow
                 {| maxBackwardsMs := Some 500; maxForwardMs := None |} 1000)
      [990; 400; 1200].
Proof.
  apply (maxBackwardsMs_is_unobservable (Some 0) (Some 500) None 1000
           [990; 400; 1200]); simpl; lia.
Defined.

Lemma now_at_ceiling (c : Clock) (current : Z) :
  last c = ceiling c ->
  fst (now c current) = ceiling c /\
  last (snd (now c current)) = ceiling (snd (now c current)) /\
  ceiling (snd (now c current)) = ceiling c.
Proof.
  unfold ceiling, now. intros Hlast.
  destruct (Z.gtb_spec current (startTime c + clock_maxForwardMs c)).
  { simpl. lia. }
  destruct (Z.ltb_spec (current + clock_maxBackwardsMs c) (last c)).
  { simpl. lia. }
  destruct (Z.geb_spec current (last c)); simpl; lia.
Qed.

Lemma now_calls_at_ceiling (readings : list Z) (c : Clock) :
  last c = ceiling c ->
  now_calls c readings = repeat (ceiling c) (length readings).
Proof.
  revert c. induction readings as [| current rest IH]; intros c Hlast.
  - reflexivity.
  - simpl. destruct (now_at_ceiling c current Hlast) as (Hv & Hl & Hc).
    destruct (now c current) as [v c'] eqn:Hnow. simpl in *.
    rewrite (IH c' Hl), Hc, Hv. reflexivity.
Qed.

Lemma clock_after_ceiling (readings : list Z) (c : Clock) :
  ceiling (clock_after c readings) = ceiling c.
Proof.
  revert c. induction readings as [| current rest IH]; intros c; simpl.
  - reflexivity.
  - rewrite IH. unfold ceiling.
    destruct (now_keeps_options c current) as (_ & -> & ->). reflexivity.
Qed.

(** X3. Once the wall clock is read above [startTime + maxForwardMs], the
    instance returns that ceiling at this call and at every later call,
    whatever the later readings and whatever its options. *)
Theorem monotonic_clock_freezes_at_ceiling
    (options : ClockOptions) (dateNow : Z) (before after : list Z)
    (current : Z) :
  dateNow + default (60 * 60 * 1000) (maxForwardMs options) < current ->
  now_calls (createMonotonicNow options dateNow)
    (before ++ current :: after)
  = now_calls (createMonotonicNow options dateNow) before
    ++ repeat (dateNow + default (60 * 60 * 1000) (maxForwardMs options))
         (S (length after)).
Proof.
  intros Hjump. rewrite now_calls_app. f_equal.
  set (c := clock_after (createMonotonicNow options dateNow) before).
  assert (Hceil : ceiling c
                  = dateNow + default (60 * 60 * 1000) (maxForwardMs options)).
  { unfold c. now rewrite clock_after_ceiling. }
  simpl.
  assert (Hnow : now c current = (ceiling c, set_last c (ceiling c))).
  { unfold now. fold (ceiling c).
    destruct (Z.gtb_spec current (ceiling c)); [| lia].
    rewrite Z.min_r by lia. reflexivity. }
  rewrite Hnow, now_calls_at_ceiling by reflexivity.
  change (ceiling (set_last c (ceiling c))) with (ceiling c).
  now rewrite Hceil.
Qed.

Lemma monotonic_clock_freezes_at_ceiling_witness :
  now_calls (createMonotonicNow
               {| maxBackwardsMs := None; maxForwardMs := None |} 1000)
    ([2000] ++ 3601001 :: [3700000; 5000; 3601000])
  = [2000; 3601000; 3601000; 3601000; 3601000].
Proof.
  rewrite (monotonic_clock_freezes_at_ceiling
             {| maxBackwardsMs := None; maxForwardMs := None |} 1000
             [2000] [3700000; 5000; 3601000] 3601001);
    [reflexivity | simpl; lia].
Defined.

(** ** The expiry predicates over time *)

(** X4. For a record present with both timestamps within the validation
    bounds, [isVisible] is true exactly from [unlockAt] on and before
    [expiresAt]; a record without either timestamp is visible at every
    finite [now]; an absent record is not visible, whatever [now] is; and
    for a record present and a [now] that is not finite, [isVisible]
    throws the error of [isUnlocked]. *)
Theorem isVisible_window (loadTime : Z) (m : EphemeralMeta) :
  (forall U E n,
     unlockAt m = VNum (Finite U) -> expiresAt m = VNum (Finite E) ->
     0 <= U <= MAX_TIMESTAMP loadTime -> 0 <= E <= MAX_TIMESTAMP loadTime ->
     isVisible loadTime (Some m) (VNum (Finite n))
     = Ok ((U <=? n) && (n <? E))) /\
  (forall n,
     unlockAt m = VUndefined -> expiresAt m = VUndefined ->
     isVisible loadTime (Some m) (VNum (Finite n)) = Ok true) /\
  (forall now, isVisible loadTime None now = Ok false) /\
  (forall now, isFinite now = false ->
     isVisible loadTime (Some m) now = Throw ERR_isUnlocked_now).
Proof.
  split; [| split; [| split]].
  - intros U E n HU HE HUb HEb. unfold isVisible.
    rewrite isUnlocked_finite_now, isExpired_finite_now, HU.
    unfold due. rewrite HE.
    replace (0 <=? U) with true by (symmetry; apply Z.leb_le; lia).
    replace (U <=? MAX_TIMESTAMP loadTime) with true
      by (symmetry; apply Z.leb_le; lia).
    replace (0 <=? E) with true by (symmetry; apply Z.leb_le; lia).
    replace (E <=? MAX_TIMESTAMP loadTime) with true
      by (symmetry; apply Z.leb_le; lia).
    simpl. destruct (Z.leb_spec U n); simpl; [| reflexivity].
    f_equal. destruct (Z.leb_spec E n), (Z.ltb_spec n E);
      try reflexivity; lia.
  - intros n HU HE. unfold isVisible.
    rewrite isUnlocked_finite_now, isExpired_finite_now, HU.
    unfold due. now rewrite HE.
  - reflexivity.
  - intros now Hnow. unfold isVisible, isUnlocked.
    now rewrite Hnow, orb_true_r.
Qed.

Lemma isVisible_window_witness :
  isVisible 1700000000000
    (Some {| id := VStr (str "s1"); createdAt := VNum (Finite 1000);
             updatedAt := VNum (Finite 1000);
             unlockAt := VNum (Finite 2000);
             expiresAt := VNum (Finite 3000) |})
    (VNum (Finite 3000))
  = Ok false.
Proof.
  rewrite (proj1 (isVisible_window 1700000000000
                    {| id := VStr (str "s1"); createdAt := VNum (Finite 1000);
                       updatedAt := VNum (Finite 1000);
                       unlockAt := VNum (Finite 2000);
                       expiresAt := VNum (Finite 3000) |}) 2000 3000 3000
             eq_refl eq_refl); [reflexivity | |];
    unfold MAX_TIMESTAMP; lia.
Defined.

(** X5. Time only moves a record forward: a record expired at a finite
    [now] is expired at every later finite [now], and a record unlocked at
    a finite [now] is unlocked at every later one. *)
Theorem expiry_is_monotone_in_now
    (loadTime : Z) (m : EphemeralMeta) (n n' : Z) :
  n <= n' ->
  (isExpired loadTime (Some m) (VNum (Finite n)) = Ok true ->
   isExpired loadTime (Some m) (VNum (Finite n')) = Ok true) /\
  (isUnlocked loadTime (Some m) (VNum (Finite n)) = Ok true ->
   isUnlocked loadTime (Some m) (VNum (Finite n')) = Ok true).
Proof.
  intros Hle. rewrite !isExpired_finite_now, !isUnlocked_finite_now.
  unfold due. split.
  - destruct (expiresAt m) as [| | b | [e | | |] | s |]; try discriminate.
    intros H. injection H as H. f_equal.
    apply andb_true_iff in H as [Hb He]. rewrite Hb. simpl.
    apply Z.leb_le in He. apply Z.leb_le. lia.
  - destruct (unlockAt m) as [| | b | [u | | |] | s |]; try reflexivity.
    intros H. injection H as H. f_equal.
    apply orb_true_iff in H as [Hb | Hu]; [now rewrite Hb |].
    apply Z.leb_le in Hu. apply orb_true_iff. right. apply Z.leb_le. lia.
Qed.

Lemma expiry_is_monotone_in_now_witness :
  isExpired 0 (Some (record "s1" (VNum (Finite 3000)))) (VNum (Finite 7000))
  = Ok true.
Proof.
  apply (proj1 (expiry_is_monotone_in_now 0
                  (record "s1" (VNum (Finite 3000))) 3000 7000
                  ltac:(lia))).
  reflexivity.
Defined.

(** X6. The unlock time fails open: a record whose [unlockAt] is a number
    outside the validation bounds, or any value that is not a number, is
    unlocked at every finite [now], also before that [unlockAt]. *)
Theorem out_of_bounds_unlockAt_is_unlocked
    (loadTime : Z) (m : EphemeralMeta) (n : Z) :
  validateTimestamp (unlockAt m) "unlockAt" 0 (MAX_TIMESTAMP loadTime)
  = false ->
  isUnlocked loadTime (Some m) (VNum (Finite n)) = Ok true.
Proof.
  intros Hbad. rewrite isUnlocked_finite_now.
  destruct (unlockAt m) as [| | b | [u | | |] | s |]; try reflexivity.
  rewrite validateTimestamp_bounds in Hbad. now rewrite Hbad.
Qed.

Lemma out_of_bounds_unlockAt_is_unlocked_witness :
  isUnlocked 1700000000000
    (Some {| id := VStr (str "s1"); createdAt := VNum (Finite 1000);
             updatedAt := VNum (Finite 1000);
             unlockAt := VNum (Finite 4853600000001);
             expiresAt := VUndefined |})
    (VNum (Finite 1700000000001))
  = Ok true.
Proof.
  apply (out_of_bounds_unlockAt_is_unlocked 1700000000000 _ 1700000000001).
  reflexivity.
Defined.

(** X7. A record whose [expiresAt] lies above the ceiling of a clock
    instance created with a [maxForwardMs] that is not negative is not
    expired at any value that instance ever returns. *)
Theorem clock_never_reaches_expiresAt_above_ceiling
    (loadTime : Z) (options : ClockOptions) (dateNow : Z)
    (readings : list Z) (m : EphemeralMeta) (e v : Z) :
  0 <= default (60 * 60 * 1000) (maxForwardMs options) ->
  expiresAt m = VNum (Finite e) ->
  dateNow + default (60 * 60 * 1000) (maxForwardMs options) < e ->
  In v (now_calls (createMonotonicNow options dateNow) readings) ->
  isExpired loadTime (Some m) (VNum (Finite v)) = Ok false.
Proof.
  intros Hforward He Habove Hin.
  destruct (now_calls_from readings (createMonotonicNow options dateNow))
    as (Hall & _).
  { unfold ceiling. simpl. lia. }
  rewrite List.Forall_forall in Hall. apply Hall in Hin.
  unfold ceiling in Hin. simpl in Hin.
  rewrite isExpired_finite_now. unfold due. rewrite He.
  replace (e <=? v) with false by (symmetry; apply Z.leb_gt; lia).
  now rewrite andb_false_r.
Qed.

Lemma clock_never_reaches_expiresAt_above_ceiling_witness :
  isExpired 1000 (Some (record "tomorrow" (VNum (Finite 86401000))))
    (VNum (Finite 3601000))
  = Ok false.
Proof.
  apply (clock_never_reaches_expiresAt_above_ceiling 1000
           {| maxBackwardsMs := None; maxForwardMs := None |} 1000
           [90000000] (record "tomorrow" (VNum (Finite 86401000)))
           86401000 3601000).
  - simpl. lia.
  - reflexivity.
  - simpl. lia.
  - simpl. left. reflexivity.
Defined.

(** ** More on one run of the collector *)

Section GcMoreFacts.
Variable loadTime : Z.
Context {W : Type}.
Implicit Types (ctx : EphemeralGCContext W) (s : GCState W).
Implicit Types (metas : list (option EphemeralMeta)).

Lemma gc_loop_without_callback ctx n metas k s :
  onExpire ctx = None ->
  gc_loop loadTime ctx (VNum (Finite n)) metas k s
  = (Ok (k + length (due_records loadTime n metas))%nat, s).
Proof.
  intros Hcb. revert k.
  induction metas as [| [m |] metas IH]; intros k.
  - simpl. unfold ret. now rewrite Nat.add_0_r.
  - rewrite due_records_cons. destruct (due loadTime n m) eqn:Hdue.
    + rewrite gc_loop_cons, isExpired_finite_now, Hdue.
      unfold await_onExpire. rewrite Hcb. unfold ret.
      rewrite IH. simpl. do 2 f_equal. lia.
    + rewrite gc_loop_skip by assumption. apply IH.
  - apply IH.
Qed.

(** X8. Without an [onExpire] callback a run with a finite [now] still
    returns the number of due records, and it leaves the backend as the
    listing left it. *)
Theorem runEphemeralGC_without_callback ctx options s n w1 metas w2 :
  nowFn options (world s) = (Ok (VNum (Finite n)), w1) ->
  normalizeList (listMetas ctx) w1 = (Ok metas, w2) ->
  onExpire ctx = None ->
  runEphemeralGC loadTime ctx options s
  = (Ok {| expired := length (due_records loadTime n metas) |},
     {| world := w2; calls := calls s |}).
Proof.
  intros Hnow Hlist Hcb.
  rewrite (runEphemeralGC_unfold _ _ _ _ _ _ _ _ Hnow Hlist).
  now rewrite gc_loop_without_callback.
Qed.

(** X9. A listing that fails expires nothing: when [listMetas] throws,
    returns a promise that rejects, returns an async iterable that throws
    after some items, or returns neither a promise nor an async iterable,
    the run rejects with that failure and calls no callback; the items an
    iterable produced before it threw are dropped. *)
Theorem runEphemeralGC_failed_listing ctx options s now w1 l w2 :
  nowFn options (world s) = (Ok now, w1) ->
  listMetas ctx w1 = (l, w2) ->
  (forall e, l = ListThrows e \/ l = ListPromise (Throw e) \/
             (exists items, l = ListAsyncIterable items (Some e)) ->
     runEphemeralGC loadTime ctx options s
     = (Throw e, {| world := w2; calls := calls s |})) /\
  (l = ListOther ->
   runEphemeralGC loadTime ctx options s
   = (Throw ERR_listMetas, {| world := w2; calls := calls s |})).
Proof.
  intros Hnow Hlist.
  assert (Hrun : forall e,
             normalizeList (listMetas ctx) w1 = (Throw e, w2) ->
             runEphemeralGC loadTime ctx options s
             = (Throw e, {| world := w2; calls := calls s |})).
  { intros e Hn. unfold runEphemeralGC, bind, in_world.
    rewrite Hnow. simpl. now rewrite Hn. }
  split.
  - intros e [-> | [-> | [items ->]]]; apply Hrun;
      unfold normalizeList, try_catch; now rewrite Hlist.
  - intros ->. apply Hrun. unfold normalizeList, try_catch.
    now rewrite Hlist.
Qed.

Lemma gc_loop_invalid_now ctx now metas k s :
  isFinite now = false ->
  gc_loop loadTime ctx now metas k s
  = (match present metas with
     | [] => Ok k
     | _ :: _ => Throw ERR_isExpired_now
     end, s).
Proof.
  intros Hnow. induction metas as [| [m |] metas IH].
  - reflexivity.
  - rewrite gc_loop_cons. unfold isExpired.
    now rewrite Hnow, orb_true_r.
  - apply IH.
Qed.

(** X10. When the captured [now] is not a finite number, a run over a
    listing with at least one record rejects with the error of
    [isExpired] before any callback is called, and a run over a listing
    of null entries only returns [expired = 0]. *)
Theorem runEphemeralGC_invalid_now ctx options s now w1 metas w2 :
  nowFn options (world s) = (Ok now, w1) ->
  isFinite now = false ->
  normalizeList (listMetas ctx) w1 = (Ok metas, w2) ->
  runEphemeralGC loadTime ctx options s
  = (match present metas with
     | [] => Ok {| expired := 0 |}
     | _ :: _ => Throw ERR_isExpired_now
     end, {| world := w2; calls := calls s |}).
Proof.
  intros Hnow Hbad Hlist.
  rewrite (runEphemeralGC_unfold _ _ _ _ _ _ _ _ Hnow Hlist).
  rewrite gc_loop_invalid_now by assumption.
  destruct (present metas); reflexivity.
Qed.

Lemma gc_loop_calls_prefix ctx cb n metas k0 s r s' :
  onExpire ctx = Some cb ->
  gc_loop loadTime ctx (VNum (Finite n)) metas k0 s = (r, s') ->
  exists k,
    calls s' = calls s ++ firstn k (due_records loadTime n metas) /\
    match r with
    | Ok count =>
        count = (k0 + length (due_records loadTime n metas))%nat /\
        k = length (due_records loadTime n metas)
    | Throw _ => (1 <= k <= length (due_records loadTime n metas))%nat
    end.
Proof.
  intros Hcb. revert k0 s.
  induction metas as [| [m |] metas IH]; intros k0 s Hrun.
  - simpl in Hrun. injection Hrun as <- <-. exists 0%nat.
    simpl. rewrite app_nil_r. split; [reflexivity | split; lia].
  - rewrite due_records_cons. destruct (due loadTime n m) eqn:Hdue.
    + rewrite gc_loop_cons, isExpired_finite_now, Hdue in Hrun.
      unfold await_onExpire in Hrun. rewrite Hcb in Hrun.
      unfold call_onExpire in Hrun.
      destruct (cb m (world s)) as [[u | e] w'].
      * apply IH in Hrun as (k & Hcalls & Hr). exists (S k).
        simpl in Hcalls |- *. rewrite Hcalls, <- app_assoc. simpl.
        split; [reflexivity |].
        destruct r; [destruct Hr as [-> ->]; split; lia | lia].
      * injection Hrun as <- <-. exists 1%nat. simpl.
        split; [reflexivity | lia].
    + rewrite gc_loop_skip in Hrun by assumption. now apply IH.
  - now apply IH.
Qed.

(** X11. Whatever the callback does, a run with a finite [now] calls it
    on an initial part of the due records, in list order and once each:
    on all of them when the run fulfils, and then the count returned is
    their number; on at least one and up to the one that failed when the
    run rejects. It is never called on a record that is not due. *)
Theorem runEphemeralGC_calls_prefix_of_due
    ctx options cb s n w1 metas w2 r s' :
  nowFn options (world s) = (Ok (VNum (Finite n)), w1) ->
  normalizeList (listMetas ctx) w1 = (Ok metas, w2) ->
  onExpire ctx = Some cb ->
  runEphemeralGC loadTime ctx options s = (r, s') ->
  exists k,
    calls s' = calls s ++ firstn k (due_records loadTime n metas) /\
    match r with
    | Ok res =>
        expired res = length (due_records loadTime n metas) /\
        k = length (due_records loadTime n metas)
    | Throw _ => (1 <= k <= length (due_records loadTime n metas))%nat
    end.
Proof.
  intros Hnow Hlist Hcb Hrun.
  rewrite (runEphemeralGC_unfold _ _ _ _ _ _ _ _ Hnow Hlist) in Hrun.
  destruct (gc_loop loadTime ctx (VNum (Finite n)) metas 0
              {| world := w2; calls := calls s |}) as [r0 s0] eqn:Hloop.
  apply (gc_loop_calls_prefix ctx cb) in Hloop as (k & Hcalls & Hr);
    [| assumption].
  exists k. simpl in Hcalls.
  destruct r0 as [count | e]; injection Hrun as <- <-;
    (split; [exact Hcalls |]).
  - destruct Hr as [-> ->]. split; reflexivity.
  - exact Hr.
Qed.
End GcMoreFacts.

Lemma runEphemeralGC_without_callback_witness :
  runEphemeralGC 5000
    (listing_ctx [Some (record "expire1" (VNum (Finite 4000))); None] None)
    (fixed_now 5000) fresh_run
  = (Ok {| expired := 1 |}, fresh_run).
Proof.
  apply (runEphemeralGC_without_callback 5000
           (listing_ctx [Some (record "expire1" (VNum (Finite 4000))); None]
              None)
           (fixed_now 5000) fresh_run 5000 tt _ tt eq_refl eq_refl eq_refl).
Defined.

Lemma runEphemeralGC_failed_listing_witness :
  runEphemeralGC 5000 (failing_ctx (JsError "GC error")) (fixed_now 5000)
    fresh_run
  = (Throw (JsError "GC error"), fresh_run).
Proof.
  apply (proj1 (runEphemeralGC_failed_listing 5000
                  (failing_ctx (JsError "GC error")) (fixed_now 5000)
                  fresh_run (VNum (Finite 5000)) tt _ tt eq_refl eq_refl)).
  right. left. reflexivity.
Defined.

Lemma runEphemeralGC_invalid_now_witness :
  runEphemeralGC 5000
    (listing_ctx [None; Some (record "expire1" (VNum (Finite 4000)))]
       (Some succeeding_callback))
    nan_now fresh_run
  = (Throw ERR_isExpired_now, fresh_run).
Proof.
  apply (runEphemeralGC_invalid_now 5000
           (listing_ctx [None; Some (record "expire1" (VNum (Finite 4000)))]
              (Some succeeding_callback))
           nan_now fresh_run (VNum NaN) tt _ tt eq_refl eq_refl eq_refl).
Defined.

Lemma runEphemeralGC_calls_prefix_of_due_witness :
  exists k,
    [record "expire1" (VNum (Finite 4000))]
    = firstn k [record "expire1" (VNum (Finite 4000));
                record "expire2" (VNum (Finite 3000))] /\
    (1 <= k <= 2)%nat.
Proof.
  destruct (runEphemeralGC_calls_prefix_of_due 5000
              (listing_ctx [Some (record "expire1" (VNum (Finite 4000)));
                            Some (record "later" (VNum (Finite 9000)));
                            Some (record "expire2" (VNum (Finite 3000)))]
                 (Some failing_callback))
              (fixed_now 5000) failing_callback fresh_run 5000 tt _ tt
              _ _ eq_refl eq_refl eq_refl eq_refl)
    as (k & Hcalls & Hk).
  exists k. split; [exact Hcalls | exact Hk].
Defined.

(** ** The scheduler under any sequence of events *)

(** X12. [start] and [stop] are idempotent and never raise: after [start]
    the scheduler is running, after [stop] it is not; a second [start]
    changes nothing, neither the timer nor the counter, and a second
    [stop] changes nothing; [start] from Stopped sets the counter of
    consecutive failures to zero, and [stop] leaves the counter as it is. *)
Theorem start_stop_idempotent (a : AutoGC) (intervalMs intervalMs' : Z) :
  fst (start intervalMs a) = Ok tt /\
  fst (stop a) = Ok tt /\
  isRunning (snd (start intervalMs a)) = true /\
  isRunning (snd (stop a)) = false /\
  snd (start intervalMs' (snd (start intervalMs a)))
  = snd (start intervalMs a) /\
  snd (stop (snd (stop a))) = snd (stop a) /\
  (isRunning a = true -> snd (start intervalMs a) = a) /\
  (isRunning a = false ->
   snd (start intervalMs a)
   = {| timer := Some intervalMs; consecutiveErrors := 0;
        console := console a |}) /\
  consecutiveErrors (snd (stop a)) = consecutiveErrors a.
Proof.
  destruct a as [[t |] n c]; unfold isRunning; simpl;
    repeat split; try reflexivity; discriminate.
Qed.

Lemma start_stop_idempotent_witness :
  snd (start 60000 {| timer := Some 50; consecutiveErrors := 3;
                      console := [] |})
  = {| timer := Some 50; consecutiveErrors := 3; console := [] |}.
Proof.
  apply (start_stop_idempotent
           {| timer := Some 50; consecutiveErrors := 3; console := [] |}
           60000 60000).
  reflexivity.
Defined.

Lemma auto_event_keeps_below (a : AutoGC) (ev : AutoGCEvent) :
  (isRunning a = true ->
   (consecutiveErrors a < MAX_CONSECUTIVE_ERRORS)%nat) ->
  isRunning (auto_event a ev) = true ->
  (consecutiveErrors (auto_event a ev) < MAX_CONSECUTIVE_ERRORS)%nat.
Proof.
  intros Hinv. destruct ev as [i | | [v | e]]; simpl.
  - destruct a as [[t |] n c]; simpl in *; intros _;
      [now apply Hinv | unfold MAX_CONSECUTIVE_ERRORS; lia].
  - destruct (stop_stops a) as (_ & -> & _). discriminate.
  - intros _. unfold MAX_CONSECUTIVE_ERRORS. lia.
  - destruct (tick_settle_rejected e a) as (_ & -> & ->).
    intros H. apply andb_true_iff in H as [_ H]. now apply Nat.ltb_lt.
Qed.

(** X13. Whatever calls of [start] and [stop] and whatever outcomes of
    runs reach a controller after its creation, while it is running its
    counter of consecutive failures is below the ceiling of five. *)
Theorem running_scheduler_below_ceiling (evs : list AutoGCEvent) :
  isRunning (auto_events evs createEphemeralAutoGC) = true ->
  (consecutiveErrors (auto_events evs createEphemeralAutoGC)
   < MAX_CONSECUTIVE_ERRORS)%nat.
Proof.
  unfold auto_events.
  induction evs as [| ev evs IH] using rev_ind.
  - discriminate.
  - rewrite fold_left_app. simpl. apply auto_event_keeps_below. exact IH.
Qed.

Lemma running_scheduler_below_ceiling_witness :
  (consecutiveErrors
     (auto_events [CallStart 50; RunSettles (Throw (JsError "GC error"));
                   RunSettles (Throw (JsError "GC error"))]
        createEphemeralAutoGC) < MAX_CONSECUTIVE_ERRORS)%nat.
Proof.
  apply (running_scheduler_below_ceiling
           [CallStart 50; RunSettles (Throw (JsError "GC error"));
            RunSettles (Throw (JsError "GC error"))]).
  reflexivity.
Defined.

Lemma tick_settle_rejected_below (e : error) (a : AutoGC) :
  (S (consecutiveErrors a) < MAX_CONSECUTIVE_ERRORS)%nat ->
  snd (tick_settle (Throw e) a)
  = log (WarnAutoGCError (S (consecutiveErrors a)) e)
      (set_consecutiveErrors (S (consecutiveErrors a)) a).
Proof.
  intros Hbelow.
  unfold tick_settle, try_catch, bind at 1, settled.
  unfold tick_catch, bind, modify, get.
  cbn [consecutiveErrors set_consecutiveErrors log].
  destruct (Nat.leb_spec MAX_CONSECUTIVE_ERRORS (S (consecutiveErrors a)));
    [lia | reflexivity].
Qed.

Lemma failures_below_ceiling (es : list error) (a : AutoGC) :
  isRunning a = true ->
  (consecutiveErrors a + length es < MAX_CONSECUTIVE_ERRORS)%nat ->
  let a' := auto_events (map (fun e => RunSettles (Throw e)) es) a in
  isRunning a' = true /\
  consecutiveErrors a' = (consecutiveErrors a + length es)%nat /\
  timer a' = timer a.
Proof.
  unfold auto_events. revert a.
  induction es as [| e es IH]; intros a Hrun Hlen; simpl in *.
  - auto with arith.
  - destruct (tick_settle_rejected e a) as (_ & Hc & Hr).
    assert (Ht : timer (snd (tick_settle (Throw e) a)) = timer a).
    { rewrite tick_settle_rejected_below by lia. reflexivity. }
    destruct (IH (snd (tick_settle (Throw e) a))) as (H1 & H2 & H3).
    + rewrite Hr, Hrun. apply Nat.ltb_lt. lia.
    + lia.
    + rewrite H1, H2, H3, Hc, Ht. repeat split. lia.
Qed.

Lemma auto_events_recovered_streak
    (es : list error) (v : EphemeralGCResult) (rest : list AutoGCEvent)
    (a : AutoGC) :
  auto_events (recovered_streak (es, v) ++ rest) a
  = auto_events rest
      (set_consecutiveErrors 0
         (auto_events (map (fun e => RunSettles (Throw e)) es) a)).
Proof.
  unfold auto_events, recovered_streak. simpl fst. simpl snd.
  rewrite <- app_assoc, fold_left_app. reflexivity.
Qed.

(** X14. Failures that come fewer than five in a row never stop a
    scheduler: started with its counter at zero, after any number of
    streaks of fewer than five failed runs each ended by a run that
    succeeds, and a last streak of fewer than five failures, it is still
    running on the same timer and its counter is the length of that last
    streak. *)
Theorem scheduler_survives_short_streaks
    (streaks : list (list error * EphemeralGCResult)) (tail : list error)
    (a : AutoGC) :
  isRunning a = true ->
  consecutiveErrors a = 0%nat ->
  Forall (fun b => (length (fst b) < MAX_CONSECUTIVE_ERRORS)%nat) streaks ->
  (length tail < MAX_CONSECUTIVE_ERRORS)%nat ->
  let a' := auto_events
              (concat (map recovered_streak streaks)
               ++ map (fun e => RunSettles (Throw e)) tail) a in
  isRunning a' = true /\
  consecutiveErrors a' = length tail /\
  timer a' = timer a.
Proof.
  intros Hrun Hzero Hstreaks Htail. cbv zeta.
  revert a Hrun Hzero.
  induction Hstreaks as [| [es v] streaks Hlen _ IH]; intros a Hrun Hzero.
  - simpl. destruct (failures_below_ceiling tail a Hrun) as (H1 & H2 & H3);
      [lia |].
    rewrite H1, H2, H3, Hzero. auto.
  - simpl in Hlen. simpl map. simpl concat.
    rewrite <- app_assoc, auto_events_recovered_streak.
    destruct (failures_below_ceiling es a Hrun) as (H1 & H2 & H3); [lia |].
    set (a1 := auto_events (map (fun e => RunSettles (Throw e)) es) a) in *.
    destruct (IH (set_consecutiveErrors 0 a1)) as (I1 & I2 & I3).
    + exact H1.
    + reflexivity.
    + rewrite I1, I2, I3. simpl. auto.
Qed.

Lemma scheduler_survives_short_streaks_witness :
  isRunning
    (auto_events
       (concat (map recovered_streak
                  [([JsError "a"; JsError "b"; JsError "c"; JsError "d"],
                    {| expired := 0 |})])
        ++ map (fun e => RunSettles (Throw e))
             [JsError "e"; JsError "f"; JsError "g"; JsError "h"])
       {| timer := Some 50; consecutiveErrors := 0; console := [] |})
  = true.
Proof.
  apply (scheduler_survives_short_streaks
           [([JsError "a"; JsError "b"; JsError "c"; JsError "d"],
             {| expired := 0 |})]
           [JsError "e"; JsError "f"; JsError "g"; JsError "h"]
           {| timer := Some 50; consecutiveErrors := 0; console := [] |}).
  - reflexivity.
  - reflexivity.
  - repeat constructor.
  - unfold MAX_CONSECUTIVE_ERRORS. simpl. lia.
Defined.

(** ** Path components *)

Lemma starts_with_iff (s p : jsstring) :
  starts_with s p = true <-> exists post, s = p ++ post.
Proof.
  revert s. induction p as [| a p IH]; intros s; simpl.
  - split; [intros _; now exists s | now destruct s].
  - destruct s as [| b s].
    + split; [discriminate | intros [post H]; discriminate].
    + simpl. rewrite andb_true_iff, N.eqb_eq, IH. split.
      * intros [-> [post ->]]. now exists post.
      * intros [post H]. injection H as -> ->. split; [reflexivity |].
        now exists post.
Qed.

Lemma includes_iff (s p : jsstring) :
  includes s p = true <-> exists pre post, s = pre ++ p ++ post.
Proof.
  induction s as [| b s IH]; cbn [includes].
  - rewrite orb_false_r, starts_with_iff. split.
    + intros [post H]. now exists [], post.
    + intros (pre & post & H). symmetry in H.
      apply app_eq_nil in H as [-> H]. now exists post.
  - rewrite orb_true_iff, starts_with_iff, IH. split.
    + intros [[post H] | (pre & post & H)].
      * now exists [], post.
      * exists (b :: pre), post. now rewrite H.
    + intros (pre & post & H). destruct pre as [| b' pre].
      * left. now exists post.
      * right. injection H as -> ->. now exists pre, post.
Qed.

Lemma includes_unit (s : jsstring) (c : N) :
  includes s [c] = true <-> In c s.
Proof.
  rewrite includes_iff. split.
  - intros (pre & post & ->). apply in_or_app. right. now left.
  - intros Hin. apply in_split in Hin as (pre & post & ->).
    now exists pre, post.
Qed.

Lemma sanitizePathComponent_safe (v : value) (r : jsstring) :
  sanitizePathComponent v = Some r <-> v = VStr r /\ safe_component r.
Proof.
  unfold safe_component. destruct v as [| | b | n | s |];
    try (split; [discriminate | intros [H _]; discriminate]).
  unfold sanitizePathComponent.
  change (str "/") with [47%N]. change (str "\") with [92%N].
  destruct (includes s (str "..")) eqn:Hdots; simpl.
  { split; [discriminate |]. intros (H & _ & _ & _ & Hno).
    injection H as ->. apply includes_iff in Hdots as (pre & post & H).
    now apply Hno in H. }
  destruct (includes s [47%N]) eqn:Hslash; simpl.
  { split; [discriminate |]. intros (H & _ & Hno & _).
    injection H as ->. now apply includes_unit in Hslash. }
  destruct (includes s [92%N]) eqn:Hback; simpl.
  { split; [discriminate |]. intros (H & _ & _ & Hno & _).
    injection H as ->. now apply includes_unit in Hback. }
  destruct (Nat.eqb_spec (length s) 0) as [H0 | H0]; simpl.
  { split; [discriminate |]. intros (H & Hlen & _). injection H as ->. lia. }
  destruct (Nat.ltb_spec 255 (length s)) as [Hlong | Hlen]; simpl.
  { split; [discriminate |]. intros (H & Hlen & _). injection H as ->. lia. }
  split.
  - intros H. injection H as <-. split; [reflexivity |].
    split; [lia |]. split; [| split].
    + intros Hin. apply includes_unit in Hin. congruence.
    + intros Hin. apply includes_unit in Hin. congruence.
    + intros pre post H.
      assert (includes s (str "..") = true); [| congruence].
      apply includes_iff. now exists pre, post.
  - intros [H _]. injection H as ->. reflexivity.
Qed.

(** X15. [sanitizePathComponent] returns its argument or nothing, and it
    returns it exactly when it is a string of 1 to 255 code units that
    contains no [/], no backslash and no two dots in a row. *)
Theorem sanitizePathComponent_iff (v : value) (r : jsstring) :
  sanitizePathComponent v = Some r <-> v = VStr r /\ safe_component r.
Proof. apply sanitizePathComponent_safe. Qed.

Lemma sanitizePathComponent_iff_witness :
  sanitizePathComponent (VStr (str "meta.json")) = Some (str "meta.json").
Proof.
  apply (proj2 (sanitizePathComponent_iff (VStr (str "meta.json"))
                  (str "meta.json"))).
  split; [reflexivity |]. split; [simpl; lia |].
  split; [| split].
  - simpl. intros H. repeat destruct H as [H | H]; try discriminate H.
    exact H.
  - simpl. intros H. repeat destruct H as [H | H]; try discriminate H.
    exact H.
  - intros pre post H.
    assert (Hinc : includes (str "meta.json") (str "..") = true)
      by (apply includes_iff; now exists pre, post).
    discriminate Hinc.
Defined.

Lemma valid_id_safe_component (i : jsstring) :
  validateMetaId (VStr i) = true -> safe_component i.
Proof.
  intros Hvalid. apply validateMetaId_sanitize in Hvalid.
  now apply sanitizePathComponent_safe in Hvalid as [_ H].
Qed.

Lemma sanitize_all_In (names : list value) (name : jsstring) :
  In name (sanitize_all names) <->
  In (VStr name) names /\ safe_component name.
Proof.
  unfold sanitize_all. rewrite <- !list_elem_of_In, list_elem_of_omap.
  split.
  - intros (v & Hv & Hs). apply sanitizePathComponent_safe in Hs as [-> Hs].
    auto.
  - intros [Hin Hs]. exists (VStr name). split; [assumption |].
    now apply sanitizePathComponent_safe.
Qed.

(** ** What the adapter does to the drive *)

Section AdapterMoreFacts.
Context {D Buf : Type}.
Variable drive_put : jsstring -> Buf -> M D unit.
Variable drive_del : jsstring -> M D (result unit).
Variable drive_exists : option (jsstring -> M D bool).
Variable stringify : EphemeralMeta -> Buf.
Implicit Types (s : AdapterState D Buf) (meta : EphemeralMeta).
Implicit Types (P : Effect Buf -> Prop).

(** X16. Whatever the record and the meta-file name, [saveMeta] either
    rejects and does nothing, or makes one [put], at a path that is the
    prefix followed by exactly two further components, the record's id
    and the meta-file name, neither of which contains a separator or two
    dots in a row; it never deletes. *)
Theorem saveMeta_path_is_confined (prefix : jsstring) (metaFile : value)
    meta s :
  (exists e,
     saveMetaToHyperdrive drive_put stringify prefix metaFile meta s
     = (Throw e, s)) \/
  (exists i f,
     id meta = VStr i /\ metaFile = VStr f /\
     safe_component i /\ safe_component f /\
     effects (snd (saveMetaToHyperdrive drive_put stringify prefix metaFile
                     meta s))
     = effects s
       ++ [DrivePut (prefix ++ str "/" ++ i ++ str "/" ++ f)
             (stringify meta)]).
Proof.
  destruct (validateMetaId (id meta)) eqn:Hid.
  2: { left. exists ERR_invalid_meta_id_format.
       unfold saveMetaToHyperdrive. now rewrite Hid. }
  destruct (id meta) as [| | b | n | i |] eqn:Hi; try discriminate.
  destruct (sanitizePathComponent metaFile) as [f |] eqn:Hfile.
  - right. exists i, f.
    rewrite (saveMeta_accepted drive_put stringify prefix i f metaFile meta s
               Hi) by (rewrite ?Hi; assumption).
    apply sanitizePathComponent_safe in Hfile as [-> Hf].
    repeat split; try apply Hf; try reflexivity;
      now apply valid_id_safe_component.
  - left. exists ERR_invalid_metaFile.
    unfold saveMetaToHyperdrive. rewrite Hi, Hid. cbn [negb].
    now rewrite (validateMetaId_sanitize i Hid), Hfile.
Qed.

Lemma total_ret {S A} (a : A) : total (@ret S A a).
Proof. intros s. reflexivity. Qed.

Lemma total_bind {S A B} (c : M S A) (k : A -> M S B) :
  total c -> (forall a, total (k a)) -> total (bind c k).
Proof.
  intros Hc Hk s. unfold bind. specialize (Hc s).
  destruct (c s) as [[a | e] s']; [apply Hk | discriminate].
Qed.

Lemma total_try_catch {S A} (c : M S A) (h : error -> M S A) :
  (forall e, total (h e)) -> total (try_catch c h).
Proof.
  intros Hh s. unfold try_catch.
  destruct (c s) as [[a | e] s']; [reflexivity | apply Hh].
Qed.

Lemma total_forEach {S A} (f : A -> M S unit) (l : list A) :
  (forall x, total (f x)) -> total (forEach f l).
Proof.
  intros Hf. induction l as [| x l IH]; simpl.
  - apply total_ret.
  - apply total_bind; [apply Hf | intros _; exact IH].
Qed.

Lemma total_effect (e : Effect Buf) : total (@effect D Buf e).
Proof. intros s. reflexivity. Qed.

Lemma total_on_drive {A} (e : Effect Buf) (c : M D A) :
  total c -> total (on_drive e c).
Proof.
  intros Hc s. unfold on_drive. specialize (Hc (drive s)).
  now destruct (c (drive s)) as [r d'].
Qed.

Lemma total_allSettled_del (base : jsstring) (names : list jsstring) :
  returns_promise drive_del ->
  total (allSettled_del (Buf := Buf) drive_del base names).
Proof.
  intros Hdel. induction names as [| name names IH]; cbn [allSettled_del].
  - apply total_ret.
  - apply total_bind; [apply total_on_drive, Hdel | intros promise].
    apply total_bind; [exact IH | intros results; apply total_ret].
Qed.

Lemma message_of_readable {S} (e : error) (s : S) :
  has_message e = true -> exists m, message_of e s = (Ok m, s).
Proof.
  destruct e as [m | v]; simpl.
  - intros _. now exists (VStr (str m)).
  - intros Hv. apply negb_true_iff in Hv. rewrite Hv. now exists VUndefined.
Qed.

Lemma message_of_throws_readable {S} (e e' : error) (s s' : S) :
  message_of e s = (Throw e', s') -> has_message e' = true /\ s' = s.
Proof.
  destruct e as [m | v]; simpl; [discriminate |].
  destruct (nullish v); [| discriminate].
  unfold throw. intros H. injection H as <- <-. now destruct v.
Qed.

(** A handler that reads the message of what it caught and warns: it
    fulfils when the message can be read, and what it throws otherwise
    has a message. *)
Lemma warn_message_readable (f : value -> AdapterDiag) (e : error) s :
  has_message e = true ->
  fst ((message <- message_of e ;; warn (D := D) (Buf := Buf) (f message)) s)
  = Ok tt.
Proof.
  intros He. unfold bind.
  destruct (message_of_readable e s He) as (m & ->). reflexivity.
Qed.

Lemma warn_message_throws (f : value -> AdapterDiag) (e e' : error) s :
  fst ((message <- message_of e ;; warn (D := D) (Buf := Buf) (f message)) s)
  = Throw e' ->
  has_message e' = true.
Proof.
  unfold bind. destruct (message_of e s) as [[m | e0] s'] eqn:Hm.
  - discriminate.
  - simpl. intros H. injection H as <-.
    now apply message_of_throws_readable in Hm.
Qed.

Lemma total_verify_deleted (exists_ : jsstring -> M D bool)
    (base i name : jsstring) :
  (forall path d e, fst (exists_ path d) = Throw e -> has_message e = true) ->
  total (verify_deleted (Buf := Buf) drive_del exists_ base i name).
Proof.
  intros Hexists s. unfold verify_deleted.
  set (path := base ++ slash ++ name).
  unfold try_catch at 1, bind at 1, on_drive at 1.
  pose proof (Hexists path (drive s)) as Hfirst.
  destruct (exists_ path (drive s)) as [[present | e] d1]; simpl in Hfirst.
  2: { rewrite warn_message_readable; [reflexivity | now apply Hfirst]. }
  destruct present; [| reflexivity].
  match goal with
  | |- context [try_catch ?c ?h ?st] =>
      unfold try_catch at 1; destruct (c st) as [[u | e] s1]
  end.
  - reflexivity.
  - match goal with
    | |- context [bind (message_of e) ?k s1] =>
        destruct (bind (message_of e) k s1) as [[u | e'] s2] eqn:Hinner
    end.
    + reflexivity.
    + rewrite warn_message_readable; [reflexivity |].
      apply (warn_message_throws (WarnRetryFailed path) e e' s1).
      now rewrite Hinner.
Qed.

Lemma within_ret {A} P (a : A) : within P (@ret (AdapterState D Buf) A a).
Proof. intros s. exists []. simpl. now rewrite app_nil_r. Qed.

Lemma within_bind {A B} P (c : M (AdapterState D Buf) A)
    (k : A -> M (AdapterState D Buf) B) :
  within P c -> (forall a, within P (k a)) -> within P (bind c k).
Proof.
  intros Hc Hk s. unfold bind. destruct (Hc s) as (es & He & Hes).
  destruct (c s) as [[a | e] s']; simpl in He.
  - destruct (Hk a s') as (es' & He' & Hes').
    exists (es ++ es'). rewrite He', He, app_assoc.
    split; [reflexivity | now apply Forall_app].
  - now exists es.
Qed.

Lemma within_try_catch {A} P (c : M (AdapterState D Buf) A)
    (h : error -> M (AdapterState D Buf) A) :
  within P c -> (forall e, within P (h e)) -> within P (try_catch c h).
Proof.
  intros Hc Hh s. unfold try_catch. destruct (Hc s) as (es & He & Hes).
  destruct (c s) as [[a | e] s']; simpl in He.
  - now exists es.
  - destruct (Hh e s') as (es' & He' & Hes').
    exists (es ++ es'). rewrite He', He, app_assoc.
    split; [reflexivity | now apply Forall_app].
Qed.

Lemma within_forEach {A} P (f : A -> M (AdapterState D Buf) unit)
    (l : list A) :
  (forall x, In x l -> within P (f x)) -> within P (forEach f l).
Proof.
  induction l as [| x l IH]; intros Hf; simpl.
  - apply within_ret.
  - apply within_bind; [apply Hf; now left |].
    intros _. apply IH. intros y Hy. apply Hf. now right.
Qed.

Lemma within_effect P (e : Effect Buf) : P e -> within P (@effect D Buf e).
Proof.
  intros He s. exists [e]. simpl. split; [reflexivity | now constructor].
Qed.

Lemma within_on_drive {A} P (e : Effect Buf) (c : M D A) :
  P e -> within P (on_drive e c).
Proof.
  intros He s. exists [e]. unfold on_drive.
  destruct (c (drive s)) as [r d']. simpl.
  split; [reflexivity | now constructor].
Qed.

Lemma within_if {A} P (b : bool) (c c' : M (AdapterState D Buf) A) :
  within P c -> within P c' -> within P (if b then c else c').
Proof. now destruct b. Qed.

Lemma within_pure {A} P (c : M (AdapterState D Buf) A) :
  (forall s, snd (c s) = s) -> within P c.
Proof.
  intros Hc s. exists []. rewrite Hc, app_nil_r. split; [reflexivity |].
  constructor.
Qed.

Lemma within_message_of P (e : error) :
  within P (message_of (S := AdapterState D Buf) e).
Proof.
  apply within_pure. intros s. destruct e as [m | v]; [reflexivity |].
  simpl. now destruct (nullish v).
Qed.

Lemma within_await {A} P (c : M (AdapterState D Buf) (result A)) :
  within P c -> within P (await c).
Proof.
  intros Hc. unfold await. apply within_bind; [exact Hc |].
  intros promise. now apply within_pure.
Qed.

Lemma within_allSettled_del P (base : jsstring) (names : list jsstring) :
  (forall name, In name names -> P (DriveDel (base ++ slash ++ name))) ->
  within P (allSettled_del (Buf := Buf) drive_del base names).
Proof.
  induction names as [| name names IH]; intros HP; cbn [allSettled_del].
  - apply within_ret.
  - apply within_bind.
    + apply within_on_drive, HP. now left.
    + intros promise. apply within_bind.
      * apply IH. intros n Hn. apply HP. now right.
      * intros results. apply within_ret.
Qed.

(** When [del] returns a promise and [exists] fails with a reason, the
    expiration callback fulfils, whatever the promises settle with. *)
Lemma deleteFiles_total (prefix : jsstring) (filesToDelete : list value)
    meta :
  returns_promise drive_del ->
  fails_with_a_reason drive_exists ->
  total (deleteFilesFromHyperdrive (Buf := Buf) drive_del drive_exists
           prefix filesToDelete meta).
Proof.
  intros Hdel Hexists. unfold deleteFilesFromHyperdrive.
  destruct (validateMetaId (id meta)); simpl.
  2: { apply total_bind; [apply total_effect | intros; apply total_ret]. }
  destruct (sanitizePathComponent (id meta)) as [i |];
    [| apply total_ret].
  apply total_bind; [now apply total_allSettled_del | intros results].
  apply total_bind.
  - destruct (0 <? length (rejected_from 0 results))%nat;
      [| apply total_ret].
    apply total_bind; [apply total_effect | intros _].
    apply total_forEach. intros [index reason]. unfold report_failure.
    destruct (nth_error _ _); apply total_effect.
  - intros _. destruct drive_exists as [exists_ |]; [| apply total_ret].
    apply total_bind; [apply total_effect | intros _].
    apply total_forEach. intros name. apply total_verify_deleted.
    intros path d e. now apply Hexists.
Qed.

Lemma deleteFiles_fulfils (prefix : jsstring) (filesToDelete : list value)
    meta s :
  returns_promise drive_del ->
  fails_with_a_reason drive_exists ->
  fst (deleteFilesFromHyperdrive drive_del drive_exists prefix filesToDelete
         meta s) = Ok tt.
Proof.
  intros Hdel Hexists.
  pose proof (deleteFiles_total prefix filesToDelete meta Hdel Hexists s)
    as Htotal.
  destruct (fst (deleteFilesFromHyperdrive _ _ _ _ _ _)) as [[] | e];
    [reflexivity | discriminate].
Qed.

(** For a record with a valid id, the effects of the callback other than
    its calls of [del] and [exists] on the record's files satisfy [P]
    as soon as the warnings about deletions and the waits do. *)
Lemma deleteFiles_within_valid P (prefix i : jsstring)
    (filesToDelete : list value) meta :
  id meta = VStr i ->
  validateMetaId (VStr i) = true ->
  (forall name,
     In name (sanitize_all filesToDelete) ->
     P (DriveDel (prefix ++ slash ++ i ++ slash ++ name)) /\
     P (DriveExists (prefix ++ slash ++ i ++ slash ++ name))) ->
  (forall ms, P (Sleep ms)) ->
  (forall d, (forall v, d <> WarnInvalidMetaId v) -> P (ConsoleWarn d)) ->
  within P (deleteFilesFromHyperdrive (Buf := Buf) drive_del drive_exists
              prefix filesToDelete meta).
Proof.
  intros Hi Hid Htarget Hsleep Hwarn.
  unfold deleteFilesFromHyperdrive. rewrite Hi, Hid. cbn [negb].
  rewrite (validateMetaId_sanitize i Hid).
  assert (Hw : forall d, (forall v, d <> WarnInvalidMetaId v) ->
                         within P (warn (D := D) d)).
  { intros d Hd. now apply within_effect, Hwarn. }
  apply within_bind.
  { apply within_allSettled_del. intros name Hin.
    rewrite <- app_assoc. now apply Htarget. }
  intros results. apply within_bind.
  - apply within_if; [| apply within_ret].
    apply within_bind; [now apply Hw | intros _].
    apply within_forEach. intros [index reason] _. unfold report_failure.
    destruct (nth_error _ _); now apply Hw.
  - intros _. destruct drive_exists as [exists_ |]; [| apply within_ret].
    apply within_bind; [now apply within_effect | intros _].
    apply within_forEach. intros name Hin. unfold verify_deleted.
    rewrite <- app_assoc.
    destruct (Htarget name Hin) as [Hdel Hex].
    apply within_try_catch.
    2: { intros e. apply within_bind; [apply within_message_of |].
         intros message. now apply Hw. }
    apply within_bind; [now apply within_on_drive | intros present].
    apply within_if; [| apply within_ret].
    apply within_try_catch.
    2: { intros e. apply within_bind; [apply within_message_of |].
         intros message. now apply Hw. }
    apply within_bind; [now apply within_await, within_on_drive | intros _].
    apply within_bind; [now apply within_effect | intros _].
    apply within_bind; [now apply within_on_drive | intros still].
    apply within_if; [now apply Hw | apply within_ret].
Qed.

Lemma deleteFiles_within (prefix : jsstring) (filesToDelete : list value)
    meta :
  within (deletion_effect (Buf := Buf) prefix filesToDelete meta)
    (deleteFilesFromHyperdrive drive_del drive_exists prefix filesToDelete
       meta).
Proof.
  destruct (validateMetaId (id meta)) eqn:Hid.
  2: { unfold deleteFilesFromHyperdrive. rewrite Hid. simpl.
       apply within_bind; [now apply within_effect |].
       intros; apply within_ret. }
  destruct (id meta) as [| | b | n | i |] eqn:Hi; try discriminate.
  apply (deleteFiles_within_valid _ prefix i); try assumption;
    try (intros; exact I).
  intros name Hin. apply sanitize_all_In in Hin as [Hin Hsafe].
  split; exists i, name; rewrite <- ?app_assoc; auto 10.
Qed.

(** X17. The expiration callback of the adapter fulfils whatever the
    promises of the drive's [del] and [exists] settle with, provided
    that [del] returns a promise (the call itself does not throw) and
    that [exists] does not fail with [null] or [undefined] as the reason.
    And in every case, whatever it is given, it never writes: all it
    does is warn, wait, and call [del] and [exists] on paths made of the
    prefix, the record's valid id and a file name of [filesToDelete] that
    passes sanitization. File names that fail sanitization are left out
    without a call. *)
Theorem onExpire_tolerates_rejections_and_is_confined
    (options : HyperdriveEphemeralOptions) meta s :
  (returns_promise drive_del ->
   fails_with_a_reason drive_exists ->
   fst (context_onExpire drive_del drive_exists options meta s) = Ok tt) /\
  exists es,
    effects (snd (context_onExpire drive_del drive_exists options meta s))
    = effects s ++ es /\
    Forall (deletion_effect (prefix options) (filesToDelete options) meta) es.
Proof.
  split; [apply deleteFiles_fulfils | apply deleteFiles_within].
Qed.
End AdapterMoreFacts.

Lemma onExpire_tolerates_rejections_and_is_confined_witness :
  fst (context_onExpire (Buf := nat) rejecting_del (Some rejecting_exists)
         {| prefix := str "/sessions"; metaFile := None;
            filesToDelete := [VStr (str "message.txt")] |}
         (record "s1" (VNum (Finite 1)))
         {| drive := tt; effects := [] |})
  = Ok tt.
Proof.
  apply (proj1 (onExpire_tolerates_rejections_and_is_confined (Buf := nat)
                  rejecting_del (Some rejecting_exists)
                  {| prefix := str "/sessions"; metaFile := None;
                     filesToDelete := [VStr (str "message.txt")] |}
                  (record "s1" (VNum (Finite 1)))
                  {| drive := tt; effects := [] |})).
  - intros path d. reflexivity.
  - intros g path d e Hg. injection Hg as <-.
    intros He. injection He as <-. reflexivity.
Defined.

(** The two ways in which the callback does reject: a [del] that throws at
    the call, inside [map], and an [exists] that fails with [null], whose
    [message] the handler cannot read. *)
Example onExpire_rejects_when_del_throws :
  fst (context_onExpire (Buf := nat) (D := unit)
         (fun _ => throw (JsError "del threw")) None
         {| prefix := str "/sessions"; metaFile := None;
            filesToDelete := [VStr (str "message.txt")] |}
         (record "s1" (VNum (Finite 1)))
         {| drive := tt; effects := [] |})
  = Throw (JsError "del threw").
Proof. reflexivity. Qed.

Example onExpire_rejects_when_exists_fails_with_null :
  fst (context_onExpire (Buf := nat) rejecting_del
         (Some (fun _ => throw (Thrown VNull)))
         {| prefix := str "/sessions"; metaFile := None;
            filesToDelete := [VStr (str "message.txt")] |}
         (record "s1" (VNum (Finite 1)))
         {| drive := tt; effects := [] |})
  = Throw (TypeError_reading_message VNull).
Proof. reflexivity. Qed.

(** ** The expiration callback on a drive that works *)

Section MemoryDriveFacts.
Context {Buf : Type}.
Implicit Types (s : AdapterState (gmap jsstring Buf) Buf).
Implicit Types (d : gmap jsstring Buf).

Lemma mem_deleted_absent (base : jsstring) (names : list jsstring) d
    (path : jsstring) :
  d !! path = None -> mem_deleted base names d !! path = None.
Proof.
  unfold mem_deleted. revert d.
  induction names as [| n names IH]; intros d Hnone; simpl.
  - exact Hnone.
  - apply IH. rewrite lookup_delete_None. now right.
Qed.

Lemma mem_deleted_In (base : jsstring) (names : list jsstring) d
    (name : jsstring) :
  In name names -> mem_deleted base names d !! (base ++ str "/" ++ name) = None.
Proof.
  revert d. induction names as [| n names IH]; intros d Hin.
  - destruct Hin.
  - destruct Hin as [-> | Hin].
    + apply (mem_deleted_absent base names). apply lookup_delete_eq.
    + apply (IH _ Hin).
Qed.

Lemma mem_deleted_others (base : jsstring) (names : list jsstring) d
    (path : jsstring) :
  (forall name, In name names -> path <> base ++ str "/" ++ name) ->
  mem_deleted base names d !! path = d !! path.
Proof.
  unfold mem_deleted. revert d.
  induction names as [| n names IH]; intros d Hother; simpl.
  - reflexivity.
  - rewrite IH by (intros name Hin; apply Hother; now right).
    apply lookup_delete_ne. intros Heq. symmetry in Heq.
    revert Heq. apply Hother. now left.
Qed.

Lemma mem_allSettled_del (base : jsstring) (names : list jsstring) s :
  exists es,
    allSettled_del mem_del base names s
    = (Ok (repeat (Ok tt) (length names)),
       {| drive := mem_deleted base names (drive s);
          effects := effects s ++ es |}).
Proof.
  revert s. induction names as [| n names IH]; intros s.
  - exists []. simpl. unfold ret. rewrite app_nil_r. now destruct s.
  - cbn [allSettled_del].
    assert (Hdel : del mem_del (base ++ slash ++ n) s
                   = (Ok (Ok tt),
                      {| drive := delete (base ++ slash ++ n) (drive s);
                         effects := effects s
                                    ++ [DriveDel (base ++ slash ++ n)] |}))
      by reflexivity.
    unfold bind at 1. rewrite Hdel. cbv beta iota. unfold bind at 1.
    destruct (IH {| drive := delete (base ++ slash ++ n) (drive s);
                    effects := effects s
                               ++ [DriveDel (base ++ slash ++ n)] |})
      as (es & ->).
    exists (DriveDel (base ++ slash ++ n) :: es). simpl.
    now rewrite <- app_assoc.
Qed.

Lemma rejected_from_fulfilled (index n : nat) :
  rejected_from index (repeat (Ok tt) n) = [].
Proof.
  revert index. induction n as [| n IH]; intros index; simpl;
    [reflexivity | apply IH].
Qed.

Lemma mem_verify_deleted (base i : jsstring) (names : list jsstring) s :
  (forall name, In name names ->
     drive s !! (base ++ str "/" ++ name) = None) ->
  fst (forEach (verify_deleted mem_del mem_exists base i) names s) = Ok tt /\
  drive (snd (forEach (verify_deleted mem_del mem_exists base i) names s)) = drive s.
Proof.
  revert s. induction names as [| n names IH]; intros s Habsent.
  - split; reflexivity.
  - assert (Hstep : verify_deleted mem_del mem_exists base i n s
                    = (Ok tt,
                       {| drive := drive s;
                          effects := effects s
                                     ++ [DriveExists (base ++ slash ++ n)] |})).
    { unfold verify_deleted, try_catch, bind at 1, on_drive, mem_exists,
        bind, get, ret. cbn [drive effects].
      change slash with (str "/").
      pose proof (Habsent n (or_introl eq_refl)) as Hn.
      unfold jsstring in *. rewrite Hn.
      rewrite bool_decide_eq_false_2 by (intros [x Hx]; discriminate).
      reflexivity. }
    assert (Hcons :
              forEach (verify_deleted mem_del mem_exists base i)
                (n :: names) s
              = forEach (verify_deleted mem_del mem_exists base i) names
                  {| drive := drive s;
                     effects := effects s
                                ++ [DriveExists (base ++ slash ++ n)] |}).
    { cbn [forEach]. unfold bind. now rewrite Hstep. }
    rewrite Hcons.
    destruct (IH {| drive := drive s;
                    effects := effects s
                               ++ [DriveExists (base ++ slash ++ n)] |})
      as [Hok Hdrive].
    { cbn [drive]. intros name Hin. apply Habsent. now right. }
    split; [exact Hok | exact Hdrive].
Qed.

(** X18. On a drive whose [del] works, after the expiration callback ran
    for a record with a valid id, none of the files of [filesToDelete]
    with a name that passes sanitization exists under the directory of
    the record, every other path of the drive holds what it held, and the
    callback has fulfilled. *)
Theorem onExpire_deletes_on_memory_drive
    (options : HyperdriveEphemeralOptions) (meta : EphemeralMeta)
    (i : jsstring) s :
  id meta = VStr i ->
  validateMetaId (id meta) = true ->
  fst (context_onExpire mem_del (Some mem_exists) options meta s) = Ok tt /\
  (forall name,
     In (VStr name) (filesToDelete options) -> safe_component name ->
     drive (snd (context_onExpire mem_del (Some mem_exists) options meta s))
       !! (prefix options ++ str "/" ++ i ++ str "/" ++ name) = None) /\
  (forall path,
     (forall name,
        In (VStr name) (filesToDelete options) -> safe_component name ->
        path <> prefix options ++ str "/" ++ i ++ str "/" ++ name) ->
     drive (snd (context_onExpire mem_del (Some mem_exists) options meta s))
       !! path = drive s !! path).
Proof.
  intros Hi Hid.
  set (base := prefix options ++ str "/" ++ i).
  set (names := sanitize_all (filesToDelete options)).
  assert (Heq : exists es,
             context_onExpire mem_del (Some mem_exists) options meta s
             = forEach (verify_deleted mem_del mem_exists base i) names
                 {| drive := mem_deleted base names (drive s);
                    effects := es |}).
  { unfold context_onExpire, deleteFilesFromHyperdrive.
    rewrite Hid. cbn [negb]. rewrite Hi in Hid |- *.
    rewrite (validateMetaId_sanitize i Hid).
    change slash with (str "/"). fold base. fold names.
    destruct (mem_allSettled_del base names s) as (es & Hall).
    exists ((effects s ++ es) ++ [Sleep 100]).
    unfold bind. rewrite Hall. cbv beta iota.
    rewrite rejected_from_fulfilled. reflexivity. }
  destruct Heq as (es & Heq).
  assert (Hrun :
            fst (context_onExpire mem_del (Some mem_exists) options meta s)
            = Ok tt /\
            drive (snd (context_onExpire mem_del (Some mem_exists) options
                          meta s))
            = mem_deleted base names (drive s)).
  { rewrite Heq. apply mem_verify_deleted. cbn [drive]. intros name Hin.
    now apply mem_deleted_In. }
  destruct Hrun as [Hok Hdrive]. rewrite Hdrive.
  split; [exact Hok |]. split.
  - intros name Hin Hsafe.
    replace (prefix options ++ str "/" ++ i ++ str "/" ++ name)
      with (base ++ str "/" ++ name)
      by (unfold base; now rewrite <- !app_assoc).
    apply mem_deleted_In. now apply sanitize_all_In.
  - intros path Hother. apply mem_deleted_others.
    intros name Hin. apply sanitize_all_In in Hin as [Hin Hsafe].
    replace (base ++ str "/" ++ name)
      with (prefix options ++ str "/" ++ i ++ str "/" ++ name)
      by (unfold base; now rewrite <- !app_assoc).
    now apply Hother.
Qed.
End MemoryDriveFacts.

Lemma onExpire_deletes_on_memory_drive_witness :
  let files : gmap jsstring nat :=
    {[ str "/sessions/s1/message.txt" := 7%nat ]} in
  let options := {| prefix := str "/sessions"; metaFile := None;
                    filesToDelete := [VStr (str "message.txt")] |} in
  drive (snd (context_onExpire (Buf := nat) mem_del (Some mem_exists)
                options (record "s1" (VNum (Finite 1)))
                {| drive := files; effects := [] |}))
    !! str "/sessions/s1/message.txt" = None.
Proof.
  intros files options.
  apply (proj1 (proj2 (onExpire_deletes_on_memory_drive (Buf := nat) options
                         (record "s1" (VNum (Finite 1))) (str "s1")
                         {| drive := files; effects := [] |}
                         eq_refl eq_refl))
           (str "message.txt")).
  - simpl. left. reflexivity.
  - apply (proj1 (sanitizePathComponent_safe (VStr (str "message.txt"))
                    (str "message.txt")) eq_refl).
Defined.

(** ** The read path *)

Lemma absent_or_finite_check (v : value) :
  defined v && not_finite_number v = false <-> absent_or_finite v.
Proof.
  unfold absent_or_finite, not_finite_number.
  destruct v as [| | b | [z | | |] | s |]; simpl; split;
    try discriminate; try (intros _; now left);
    try (intros _; right; now exists z); try reflexivity;
    intros [H | [z' H]]; discriminate.
Qed.

Lemma absent_or_bounded_check (now : Z) (v : value) :
  defined v && not_finite_number v = false /\
  defined v && out_of_bounds v now = false <->
  absent_or_bounded now v.
Proof.
  unfold absent_or_bounded, not_finite_number, out_of_bounds.
  destruct v as [| | b | [z | | |] | s |]; simpl;
    try (split; [intros [H _]; discriminate
                | intros [H | (z' & H & _)]; discriminate]).
  - split; [intros _; now left | auto].
  - split.
    + intros [_ H]. right. exists z. split; [reflexivity |].
      apply orb_false_iff in H as [H1 H2].
      apply Z.ltb_ge in H1. apply Z.ltb_ge in H2. lia.
    + intros [H | (z' & H & Hb)]; [discriminate |].
      injection H as <-. split; [reflexivity |].
      apply orb_false_iff. split; apply Z.ltb_ge; lia.
Qed.

Lemma valid_id_passes_presence (v : value) :
  validateMetaId v = true ->
  falsy v || negb (typeof_string v) = false.
Proof.
  destruct v as [| | b | n | s |]; try discriminate.
  intros Hvalid. apply validateMetaId_string in Hvalid as [Hlen _].
  simpl. rewrite orb_false_r. apply Nat.eqb_neq. lia.
Qed.

Lemma check_parsed_accepts (now : Z) (path : jsstring)
    (parsed : option EphemeralMeta) (m : EphemeralMeta) :
  check_parsed now path parsed = inr m <->
  parsed = Some m /\ well_formed_record now m.
Proof.
  unfold well_formed_record. destruct parsed as [meta |]; simpl.
  2: { split; [discriminate | intros [H _]; discriminate]. }
  destruct (falsy (id meta) || negb (typeof_string (id meta))) eqn:Hpresent.
  { split; [discriminate |]. intros (H & Hid & _). injection H as ->.
    rewrite valid_id_passes_presence in Hpresent by assumption.
    discriminate. }
  destruct (validateMetaId (id meta)) eqn:Hid; simpl.
  2: { split; [discriminate |]. intros (H & Hid' & _). injection H as ->.
       congruence. }
  destruct (defined (createdAt meta) && not_finite_number (createdAt meta))
    eqn:Hc.
  { split; [discriminate |]. intros (H & _ & Hc' & _). injection H as ->.
    apply absent_or_finite_check in Hc'. congruence. }
  destruct (defined (updatedAt meta) && not_finite_number (updatedAt meta))
    eqn:Hu.
  { split; [discriminate |]. intros (H & _ & _ & Hu' & _). injection H as ->.
    apply absent_or_finite_check in Hu'. congruence. }
  destruct (defined (expiresAt meta) && not_finite_number (expiresAt meta))
    eqn:He1.
  { split; [discriminate |]. intros (H & _ & _ & _ & He' & _).
    injection H as ->. apply absent_or_bounded_check in He' as [He' _].
    congruence. }
  destruct (defined (expiresAt meta) && out_of_bounds (expiresAt meta) now)
    eqn:He2.
  { split; [discriminate |]. intros (H & _ & _ & _ & He' & _).
    injection H as ->. apply absent_or_bounded_check in He' as [_ He'].
    congruence. }
  destruct (defined (unlockAt meta) && not_finite_number (unlockAt meta))
    eqn:Hl1.
  { split; [discriminate |]. intros (H & _ & _ & _ & _ & Hl').
    injection H as ->. apply absent_or_bounded_check in Hl' as [Hl' _].
    congruence. }
  destruct (defined (unlockAt meta) && out_of_bounds (unlockAt meta) now)
    eqn:Hl2.
  { split; [discriminate |]. intros (H & _ & _ & _ & _ & Hl').
    injection H as ->. apply absent_or_bounded_check in Hl' as [_ Hl'].
    congruence. }
  split.
  - intros H. injection H as <-. split; [reflexivity |].
    split; [exact Hid |].
    split; [now apply absent_or_finite_check |].
    split; [now apply absent_or_finite_check |].
    split; now apply absent_or_bounded_check.
  - intros [H _]. now injection H as ->.
Qed.

(** X19. The read path keeps a parsed value exactly when it is an object
    whose id has the valid format, whose [createdAt] and [updatedAt] are
    absent or finite numbers, and whose [expiresAt] and [unlockAt] are
    absent or finite numbers from 0 to the listing's [now] plus 100
    years; it keeps it as it is. Otherwise it gives a warning. *)
Theorem check_parsed_iff (now : Z) (path : jsstring)
    (parsed : option EphemeralMeta) (m : EphemeralMeta) :
  check_parsed now path parsed = inr m <->
  parsed = Some m /\ well_formed_record now m.
Proof. apply check_parsed_accepts. Qed.

Lemma check_parsed_iff_witness :
  check_parsed 5000 (str "/sessions/s1/meta.json")
    (Some (record "s1" (VNum (Finite 9000))))
  = inr (record "s1" (VNum (Finite 9000))).
Proof.
  apply (proj2 (check_parsed_iff 5000 (str "/sessions/s1/meta.json")
                  (Some (record "s1" (VNum (Finite 9000))))
                  (record "s1" (VNum (Finite 9000))))).
  split; [reflexivity |]. split; [reflexivity |].
  split; [right; now exists 1000 |].
  split; [right; now exists 1000 |].
  split; [right; exists 9000; split; [reflexivity | lia] | now left].
Defined.

Section ListingFacts.
Context {D Buf : Type}.
Variable drive_readdir :
  option (jsstring -> D -> option (list DirEntry * option error) * D).
Variable drive_get : jsstring -> M D (option Buf).
Variable Date_now : D -> Z * D.
Variable buf_length : Buf -> Z.
Variable JSON_parse : Buf -> result (option EphemeralMeta).
Variable ToString : value -> jsstring.
Implicit Types (s : ListingState D) (metas acc : list EphemeralMeta).

Lemma list_entries_unfold (prefix : jsstring) (metaFile : value) (now : Z)
    (entry : DirEntry) (rest : list DirEntry) acc :
  list_entries drive_get buf_length JSON_parse ToString prefix metaFile now
    (entry :: rest) acc
  = if falsy (entry_id entry) then
      list_entries drive_get buf_length JSON_parse ToString prefix metaFile
        now rest acc
    else
      bind
        (on_listing_drive
           (drive_get (prefix ++ str "/" ++ ToString (entry_id entry)
                       ++ str "/" ++ ToString metaFile)))
        (fun buf =>
           match buf with
           | None =>
               list_entries drive_get buf_length JSON_parse ToString prefix
                 metaFile now rest acc
           | Some buf =>
               if buf_length buf >? MAX_META_SIZE then
                 bind
                   (listing_warn
                      (WarnMetaTooLarge
                         (prefix ++ str "/" ++ ToString (entry_id entry)
                          ++ str "/" ++ ToString metaFile) (buf_length buf)))
                   (fun _ =>
                      list_entries drive_get buf_length JSON_parse ToString
                        prefix metaFile now rest acc)
               else
                 match JSON_parse buf with
                 | Throw err =>
                     bind
                       (listing_warn
                          (WarnParseFailed
                             (prefix ++ str "/" ++ ToString (entry_id entry)
                              ++ str "/" ++ ToString metaFile) err))
                       (fun _ =>
                          list_entries drive_get buf_length JSON_parse
                            ToString prefix metaFile now rest acc)
                 | Ok parsed =>
                     match check_parsed now
                             (prefix ++ str "/" ++ ToString (entry_id entry)
                              ++ str "/" ++ ToString metaFile) parsed with
                     | inl d =>
                         bind (listing_warn d)
                           (fun _ =>
                              list_entries drive_get buf_length JSON_parse
                                ToString prefix metaFile now rest acc)
                     | inr meta =>
                         list_entries drive_get buf_length JSON_parse
                           ToString prefix metaFile now rest (acc ++ [meta])
                     end
                 end
           end).
Proof. reflexivity. Qed.

(** One turn of the loop: it throws what [drive.get] throws, or goes on
    with the array as it was or with one record more, which the checks
    have accepted. *)
Lemma list_entries_cons (prefix : jsstring) (metaFile : value) (now : Z)
    (entry : DirEntry) (rest : list DirEntry) acc s :
  (exists e s', list_entries drive_get buf_length JSON_parse ToString prefix metaFile now (entry :: rest) acc s
                = (Throw e, s') /\
                fst (drive_get
                       (prefix ++ str "/" ++ ToString (entry_id entry)
                        ++ str "/" ++ ToString metaFile)
                       (listing_drive s)) = Throw e /\
                falsy (entry_id entry) = false) \/
  (exists s', list_entries drive_get buf_length JSON_parse ToString prefix metaFile now (entry :: rest) acc s
              = list_entries drive_get buf_length JSON_parse ToString prefix metaFile now rest acc s') \/
  (exists m s' path parsed,
     list_entries drive_get buf_length JSON_parse ToString prefix metaFile now (entry :: rest) acc s
     = list_entries drive_get buf_length JSON_parse ToString prefix metaFile now rest (acc ++ [m]) s' /\
     check_parsed now path parsed = inr m).
Proof.
  rewrite list_entries_unfold.
  destruct (falsy (entry_id entry)); [right; left; now exists s |].
  unfold bind, on_listing_drive, listing_warn.
  destruct (drive_get _ (listing_drive s)) as [[[buf |] | e] d'] eqn:Hget.
  - destruct (buf_length buf >? MAX_META_SIZE).
    { right. left. eexists. reflexivity. }
    destruct (JSON_parse buf) as [parsed | err].
    + destruct (check_parsed now _ parsed) as [d | m] eqn:Hcheck.
      * right. left. eexists. reflexivity.
      * right. right. exists m. eexists. eexists. exists parsed.
        split; [reflexivity | exact Hcheck].
    + right. left. eexists. reflexivity.
  - right. left. eexists. reflexivity.
  - left. exists e. eexists. split; [reflexivity |].
    split; reflexivity.
Qed.

Lemma list_entries_sound (prefix : jsstring) (metaFile : value) (now : Z)
    (entries : list DirEntry) acc s metas s' :
  Forall (well_formed_record now) acc ->
  list_entries drive_get buf_length JSON_parse ToString prefix metaFile now entries acc s = (Ok metas, s') ->
  Forall (well_formed_record now) metas.
Proof.
  revert acc s. induction entries as [| entry rest IH]; intros acc s Hacc Hrun.
  - simpl in Hrun. now injection Hrun as <- _.
  - destruct (list_entries_cons prefix metaFile now entry rest acc s)
      as [(e & s1 & Heq & _) | [(s1 & Heq) | (m & s1 & p & parsed & Heq & Hm)]];
      rewrite Heq in Hrun.
    + discriminate.
    + now apply (IH acc s1).
    + apply (IH (acc ++ [m]) s1); [| exact Hrun].
      apply Forall_app. split; [exact Hacc |].
      constructor; [| constructor].
      now apply check_parsed_accepts in Hm as [_ Hm].
Qed.

Lemma listMetas_sound
    (prefix : jsstring) (metaFile : value) s metas s' :
  listMetasFromHyperdrive drive_readdir drive_get Date_now
    buf_length JSON_parse ToString prefix metaFile s = (Ok metas, s') ->
  metas = [] \/
  exists readdir entries d1 now d2,
    drive_readdir = Some readdir /\
    readdir prefix (listing_drive s) = (Some (entries, None), d1) /\
    fresh_now Date_now d1 = (Ok now, d2) /\
    Forall (well_formed_record now) metas.
Proof.
  unfold listMetasFromHyperdrive.
  destruct drive_readdir as [readdir |].
  2: { intros H. injection H as <- _. now left. }
  unfold bind at 1, on_listing_drive at 1.
  destruct (readdir prefix (listing_drive s))
    as [[[entries failure] |] d1] eqn:Hdir.
  2: { intros H. injection H as <- _. now left. }
  unfold bind at 1, on_listing_drive at 1. cbn [listing_drive warnings].
  destruct (fresh_now Date_now d1) as [[now | e] d2] eqn:Hnow;
    [| discriminate].
  unfold bind at 1.
  destruct (list_entries drive_get buf_length JSON_parse ToString prefix metaFile now entries [] _)
    as [[listed | e] s1] eqn:Hloop; [| discriminate].
  destruct failure as [e |]; [discriminate |].
  intros H. injection H as <- _. right. exists readdir, entries, d1, now, d2.
  split; [reflexivity |]. split; [exact Hdir |]. split; [exact Hnow |].
  eapply (list_entries_sound prefix metaFile now entries []);
    [constructor | exact Hloop].
Qed.

(** X20. Every record that [listMetas] returns has passed the checks of
    the read path against the [now] of that listing, the first value of
    a clock created for it once [drive.readdir] has returned, on the
    drive as that call left it: its id has the valid format and its
    timestamps are absent or finite and, for [expiresAt] and [unlockAt],
    within 0 and that [now] plus 100 years. *)
Theorem listMetas_returns_well_formed_records
    (prefix : jsstring) (metaFile : value) s metas s' :
  listMetasFromHyperdrive drive_readdir drive_get Date_now
    buf_length JSON_parse ToString prefix metaFile s = (Ok metas, s') ->
  metas = [] \/
  exists readdir entries d1 now d2,
    drive_readdir = Some readdir /\
    readdir prefix (listing_drive s) = (Some (entries, None), d1) /\
    fresh_now Date_now d1 = (Ok now, d2) /\
    Forall (well_formed_record now) metas.
Proof. apply listMetas_sound. Qed.

Lemma total_list_entries (prefix : jsstring) (metaFile : value) (now : Z)
    (entries : list DirEntry) acc :
  (forall path, total (drive_get path)) ->
  total (list_entries drive_get buf_length JSON_parse ToString prefix metaFile now entries acc).
Proof.
  intros Hget. revert acc.
  induction entries as [| entry rest IH]; intros acc s.
  - reflexivity.
  - destruct (list_entries_cons prefix metaFile now entry rest acc s)
      as [(e & s1 & _ & Hfail & _) | [(s1 & ->) | (m & s1 & p & q & -> & _)]].
    + specialize (Hget (prefix ++ str "/" ++ ToString (entry_id entry)
                        ++ str "/" ++ ToString metaFile) (listing_drive s)).
      rewrite Hfail in Hget. discriminate.
    + apply IH.
    + apply IH.
Qed.

(** X21. What is stored cannot make a listing fail: when [drive.get]
    does not fail, [listMetas] rejects only with the failure that the
    iterator of [drive.readdir] ended with, whatever the buffers hold,
    whether they are too large, do not parse or parse to anything; and
    on a drive without [readdir] it returns the empty list and touches
    nothing. *)
Theorem listMetas_fails_only_with_the_drive
    (prefix : jsstring) (metaFile : value) s :
  (forall path, total (drive_get path)) ->
  (drive_readdir = None -> listMetasFromHyperdrive drive_readdir drive_get Date_now
    buf_length JSON_parse ToString prefix metaFile s = (Ok [], s)) /\
  (forall e,
     fst (listMetasFromHyperdrive drive_readdir drive_get Date_now
    buf_length JSON_parse ToString prefix metaFile s) = Throw e ->
     exists readdir entries d',
       drive_readdir = Some readdir /\
       readdir prefix (listing_drive s) = (Some (entries, Some e), d')).
Proof.
  intros Hget. unfold listMetasFromHyperdrive. split.
  { intros ->. reflexivity. }
  intros e. destruct drive_readdir as [readdir |]; [| discriminate].
  unfold bind at 1, on_listing_drive at 1.
  destruct (readdir prefix (listing_drive s))
    as [[[entries failure] |] d1] eqn:Hdir; [| discriminate].
  unfold bind at 1, on_listing_drive at 1. cbn [listing_drive warnings].
  unfold fresh_now at 1.
  destruct (Date_now d1) as [created d2].
  destruct (Date_now d2) as [current d3].
  unfold bind at 1.
  match goal with
  | |- context [list_entries drive_get buf_length JSON_parse ToString prefix metaFile ?n entries [] ?st] =>
      pose proof (total_list_entries prefix metaFile n entries [] Hget st)
        as Htotal;
      destruct (list_entries drive_get buf_length JSON_parse ToString prefix metaFile n entries [] st)
        as [[listed | e'] s1]
  end; [| discriminate].
  destruct failure as [e' |]; [| discriminate].
  simpl. intros H. injection H as ->. now exists readdir, entries, d1.
Qed.
End ListingFacts.

Lemma listMetas_returns_well_formed_records_witness :
  [record "s1" (VNum (Finite 4000))] = [] \/
  exists readdir entries d1 now d2,
    Some (mem_readdir (Buf := EphemeralMeta) [str "s1"; str "s2"])
    = Some readdir /\
    readdir (str "/sessions")
      {[ str "/sessions/s1/meta.json" := record "s1" (VNum (Finite 4000)) ]}
    = (Some (entries, None), d1) /\
    fresh_now (wall_clock_at 5000) d1 = (Ok now, d2) /\
    Forall (well_formed_record now) [record "s1" (VNum (Finite 4000))].
Proof.
  refine (listMetas_returns_well_formed_records
           (Some (mem_readdir [str "s1"; str "s2"])) mem_get
           (wall_clock_at 5000) (fun _ => 100) (fun meta => Ok (Some meta))
           ToString_on_strings (str "/sessions") (VStr (str "meta.json"))
           {| listing_drive :=
                {[ str "/sessions/s1/meta.json"
                   := record "s1" (VNum (Finite 4000)) ]};
              warnings := [] |}
           [record "s1" (VNum (Finite 4000))]
           {| listing_drive :=
                {[ str "/sessions/s1/meta.json"
                   := record "s1" (VNum (Finite 4000)) ]};
              warnings := [] |} _).
  reflexivity.
Defined.

Lemma listMetas_fails_only_with_the_drive_witness :
  exists readdir entries d',
    Some (fun (_ : jsstring) (d : gmap jsstring EphemeralMeta) =>
            (Some ([EntryString (str "s1")],
                   Some (JsError "iterator failed")), d))
    = Some readdir /\
    readdir (str "/sessions")
      {[ str "/sessions/s1/meta.json" := record "s1" (VNum (Finite 4000)) ]}
    = (Some (entries, Some (JsError "iterator failed")), d').
Proof.
  refine (proj2 (listMetas_fails_only_with_the_drive
           (Some (fun (_ : jsstring) (d : gmap jsstring EphemeralMeta) =>
                    (Some ([EntryString (str "s1")],
                           Some (JsError "iterator failed")), d)))
           mem_get (wall_clock_at 5000)
           (fun _ => 100) (fun meta => Ok (Some meta)) ToString_on_strings
           (str "/sessions") (VStr (str "meta.json"))
           {| listing_drive :=
                {[ str "/sessions/s1/meta.json"
                   := record "s1" (VNum (Finite 4000)) ]};
              warnings := [] |}
           (fun path d => eq_refl)) (JsError "iterator failed") _).
  reflexivity.
Defined.

(** ** A listing that cannot read, and records saved but never listed *)

Section ListingMoreFacts.
Context {D Buf : Type}.
Variable drive_readdir :
  option (jsstring -> D -> option (list DirEntry * option error) * D).
Variable drive_get : jsstring -> M D (option Buf).
Variable Date_now : D -> Z * D.
Variable buf_length : Buf -> Z.
Variable JSON_parse : Buf -> result (option EphemeralMeta).
Variable ToString : value -> jsstring.
Implicit Types (s : ListingState D) (metas acc : list EphemeralMeta).

Lemma list_entries_app (prefix : jsstring) (metaFile : value) (now : Z)
    (pre post : list DirEntry) acc s :
  list_entries drive_get buf_length JSON_parse ToString prefix metaFile now
    (pre ++ post) acc s
  = match list_entries drive_get buf_length JSON_parse ToString prefix
            metaFile now pre acc s with
    | (Ok acc', s') =>
        list_entries drive_get buf_length JSON_parse ToString prefix
          metaFile now post acc' s'
    | (Throw e, s') => (Throw e, s')
    end.
Proof.
  revert acc s. induction pre as [| entry pre IH]; intros acc s.
  - reflexivity.
  - rewrite <- app_comm_cons, !list_entries_unfold.
    destruct (falsy (entry_id entry)); [apply IH |].
    unfold bind, on_listing_drive, listing_warn.
    destruct (drive_get _ (listing_drive s)) as [[[buf |] | e] d'];
      [| apply IH | reflexivity].
    destruct (buf_length buf >? MAX_META_SIZE); [apply IH |].
    destruct (JSON_parse buf) as [parsed | err]; [| apply IH].
    destruct (check_parsed now _ parsed) as [d | m]; apply IH.
Qed.

(** X22. A file that cannot be read fails the whole listing: when
    [drive.get] fails for an entry of the directory, [listMetas] rejects
    with that failure, and the records gathered from the entries before it
    are lost with it. *)
Theorem listMetas_aborts_when_get_fails
    (prefix : jsstring) (metaFile : value) s
    readdir (pre post : list DirEntry) (entry : DirEntry) failure
    d1 now d2 acc s1 e d3 :
  drive_readdir = Some readdir ->
  readdir prefix (listing_drive s)
  = (Some (pre ++ entry :: post, failure), d1) ->
  fresh_now Date_now d1 = (Ok now, d2) ->
  list_entries drive_get buf_length JSON_parse ToString prefix metaFile now
    pre [] {| listing_drive := d2; warnings := warnings s |} = (Ok acc, s1) ->
  falsy (entry_id entry) = false ->
  drive_get (prefix ++ str "/" ++ ToString (entry_id entry) ++ str "/"
             ++ ToString metaFile) (listing_drive s1) = (Throw e, d3) ->
  listMetasFromHyperdrive drive_readdir drive_get Date_now buf_length
    JSON_parse ToString prefix metaFile s
  = (Throw e, {| listing_drive := d3; warnings := warnings s1 |}).
Proof.
  intros Hdir Hentries Hnow Hpre Hid Hget.
  unfold listMetasFromHyperdrive. rewrite Hdir.
  unfold bind at 1, on_listing_drive at 1. rewrite Hentries.
  unfold bind at 1, on_listing_drive at 1. cbn [listing_drive warnings].
  rewrite Hnow. unfold bind at 1.
  rewrite list_entries_app, Hpre, list_entries_unfold, Hid.
  unfold bind, on_listing_drive. now rewrite Hget.
Qed.
End ListingMoreFacts.

Lemma listMetas_aborts_when_get_fails_witness :
  listMetasFromHyperdrive (Buf := EphemeralMeta)
    (Some (mem_readdir (Buf := EphemeralMeta) [str "s1"]))
    (fun _ => throw (JsError "read failed")) (wall_clock_at 5000)
    (fun _ => 100) (fun meta => Ok (Some meta)) ToString_on_strings
    (str "/sessions") (VStr (str "meta.json"))
    {| listing_drive := ∅; warnings := [] |}
  = (Throw (JsError "read failed"), {| listing_drive := ∅; warnings := [] |}).
Proof.
  apply (listMetas_aborts_when_get_fails (Buf := EphemeralMeta)
           (Some (mem_readdir (Buf := EphemeralMeta) [str "s1"]))
           (fun _ => throw (JsError "read failed")) (wall_clock_at 5000)
           (fun _ => 100) (fun meta => Ok (Some meta)) ToString_on_strings
           (str "/sessions") (VStr (str "meta.json"))
           {| listing_drive := ∅; warnings := [] |}
           (mem_readdir (Buf := EphemeralMeta) [str "s1"]) [] [] (EntryString (str "s1")) None
           ∅ 5000 ∅ [] {| listing_drive := ∅; warnings := [] |}
           (JsError "read failed") ∅); reflexivity.
Defined.

(** X23. The write path checks less than the read path: a record with a
    valid id and any timestamps at all is stored by [saveMeta] when the
    meta-file name passes sanitization, and when its timestamps do not
    pass the checks of the read path, every listing that parses it back
    drops it with a warning. *)
Theorem saveMeta_stores_what_listMetas_drops {D Buf : Type}
    (drive_put : jsstring -> Buf -> M D unit)
    (stringify : EphemeralMeta -> Buf)
    (prefix i f : jsstring) (metaFile : value) (meta : EphemeralMeta)
    (s : AdapterState D Buf) (now : Z) (path : jsstring) :
  id meta = VStr i ->
  validateMetaId (id meta) = true ->
  sanitizePathComponent metaFile = Some f ->
  ~ well_formed_record now meta ->
  effects (snd (saveMetaToHyperdrive drive_put stringify prefix metaFile
                  meta s))
  = effects s
    ++ [DrivePut (prefix ++ str "/" ++ i ++ str "/" ++ f) (stringify meta)] /\
  exists d, check_parsed now path (Some meta) = inl d.
Proof.
  intros Hi Hid Hfile Hbad. split.
  - now rewrite (saveMeta_accepted drive_put stringify prefix i f metaFile
                   meta s Hi Hid Hfile).
  - destruct (check_parsed now path (Some meta)) as [d | m] eqn:Hcheck.
    + now exists d.
    + apply check_parsed_accepts in Hcheck as [H Hwf].
      injection H as <-. contradiction.
Qed.

Lemma saveMeta_stores_what_listMetas_drops_witness :
  exists d,
    check_parsed 5000 (str "/sessions/s1/meta.json")
      (Some (record "s1" (VNum NaN))) = inl d.
Proof.
  apply (saveMeta_stores_what_listMetas_drops mem_put (fun meta => meta)
           (str "/sessions") (str "s1") (str "meta.json")
           (VStr (str "meta.json")) (record "s1" (VNum NaN))
           {| drive := ∅; effects := [] |} 5000
           (str "/sessions/s1/meta.json") eq_refl eq_refl eq_refl).
  intros (_ & _ & _ & [H | (z & H & _)] & _); discriminate H.
Defined.

(** ** The complete setup *)

Lemma gc_loop_world_rel (loadTime : Z) {W : Type}
    (ctx : EphemeralGCContext W) (cb : EphemeralMeta -> M W unit)
    (R : W -> W -> Prop) (now : value)
    (metas : list (option EphemeralMeta)) (k : nat) (s : GCState W)
    (r : result nat) (s' : GCState W) :
  onExpire ctx = Some cb ->
  (forall w, R w w) ->
  (forall a b c, R a b -> R b c -> R a c) ->
  (forall m w, In (Some m) metas -> R w (snd (cb m w))) ->
  gc_loop loadTime ctx now metas k s = (r, s') ->
  R (world s) (world s').
Proof.
  intros Hcb Hrefl Htrans. revert k s.
  induction metas as [| [m |] metas IH]; intros k s Hstep Hrun.
  - simpl in Hrun. injection Hrun as _ <-. apply Hrefl.
  - rewrite gc_loop_cons in Hrun.
    assert (Hrest : forall m' w, In (Some m') metas -> R w (snd (cb m' w)))
      by (intros m' w Hin; apply Hstep; now right).
    destruct (isExpired loadTime (Some m) now) as [[|] | e].
    + unfold await_onExpire in Hrun. rewrite Hcb in Hrun.
      unfold call_onExpire in Hrun.
      pose proof (Hstep m (world s) (or_introl eq_refl)) as Hm.
      destruct (cb m (world s)) as [[u | e] w'].
      * apply (IH _ _ Hrest) in Hrun. simpl in Hrun, Hm.
        now apply (Htrans _ w').
      * injection Hrun as _ <-. exact Hm.
    + now apply (IH _ _ Hrest) in Hrun.
    + injection Hrun as _ <-. apply Hrefl.
  - apply (IH k s); [| exact Hrun].
    intros m' w Hin. apply Hstep. now right.
Qed.

Section HyperdriveGcFacts.
Context {D Buf : Type}.
Variable drive_put : jsstring -> Buf -> M D unit.
Variable drive_del : jsstring -> M D (result unit).
Variable drive_exists : option (jsstring -> M D bool).
Variable drive_readdir :
  option (jsstring -> D -> option (list DirEntry * option error) * D).
Variable drive_get : jsstring -> M D (option Buf).
Variable Date_now : D -> Z * D.
Variable stringify : EphemeralMeta -> Buf.
Variable buf_length : Buf -> Z.
Variable JSON_parse : Buf -> result (option EphemeralMeta).
Variable ToString : value -> jsstring.
Variable loadTime : Z.
Variable options : HyperdriveEphemeralOptions.
Implicit Types (w : HyperdriveWorld D Buf).
Implicit Types (g : GCState (HyperdriveWorld D Buf)).

Lemma effects_grow_refl (P : Effect Buf -> Prop) w : effects_grow P w w.
Proof. exists []. split; [now rewrite app_nil_r | constructor]. Qed.

Lemma effects_grow_trans (P : Effect Buf -> Prop) w1 w2 w3 :
  effects_grow P w1 w2 -> effects_grow P w2 w3 -> effects_grow P w1 w3.
Proof.
  intros (es & He & Hes) (es' & He' & Hes'). exists (es ++ es').
  rewrite He', He, app_assoc. split; [reflexivity | now apply Forall_app].
Qed.

Lemma setup_onExpire_fulfils (meta : EphemeralMeta) w :
  returns_promise drive_del ->
  fails_with_a_reason drive_exists ->
  fst (as_adapter (context_onExpire drive_del drive_exists options meta) w)
  = Ok tt.
Proof.
  intros Hdel Hexists. unfold as_adapter, context_onExpire.
  pose proof (deleteFiles_fulfils drive_del drive_exists (prefix options)
                (filesToDelete options) meta
                {| drive := hw_drive w; effects := hw_effects w |}
                Hdel Hexists) as Hok.
  destruct (deleteFilesFromHyperdrive _ _ _ _ _ _) as [r s']. exact Hok.
Qed.

Lemma setup_onExpire_keeps_clock (meta : EphemeralMeta) w :
  hw_clock (snd (as_adapter
                   (context_onExpire drive_del drive_exists options meta) w))
  = hw_clock w.
Proof.
  unfold as_adapter. destruct (context_onExpire _ _ _ _ _) as [r s'].
  reflexivity.
Qed.

Lemma setup_onExpire_regular (meta : EphemeralMeta) w :
  validateMetaId (id meta) = true ->
  effects_grow regular_deletion w
    (snd (as_adapter
            (context_onExpire drive_del drive_exists options meta) w)).
Proof.
  intros Hid.
  destruct (id meta) as [| | b | n | i |] eqn:Hi; try discriminate.
  assert (Hwithin : within (regular_deletion (Buf := Buf))
                      (deleteFilesFromHyperdrive drive_del drive_exists
                         (prefix options) (filesToDelete options) meta)).
  { apply (deleteFiles_within_valid (Buf := Buf) drive_del drive_exists
             regular_deletion (prefix options) i (filesToDelete options)
             meta Hi Hid).
    - intros name _. split; exact I.
    - intros ms. exact I.
    - intros d Hd. destruct d as [v | | | | | |]; try exact I.
      now destruct (Hd v). }
  destruct (Hwithin {| drive := hw_drive w; effects := hw_effects w |})
    as (es & He & Hes).
  unfold effects_grow, as_adapter, context_onExpire.
  destruct (deleteFilesFromHyperdrive _ _ _ _ _ _) as [r s'].
  exists es. simpl in *. auto.
Qed.

Lemma setup_listing (w1 w2 : HyperdriveWorld D Buf)
    (r : result (list EphemeralMeta)) :
  as_listing (context_listMetas drive_readdir drive_get Date_now buf_length
                JSON_parse ToString options) w1 = (r, w2) ->
  hw_effects w2 = hw_effects w1 /\ hw_clock w2 = hw_clock w1 /\
  normalizeList
    (listMetas (createHyperdriveEphemeralContext drive_put drive_del
                  drive_exists drive_readdir drive_get Date_now stringify
                  buf_length JSON_parse ToString options)) w1
  = (match r with
     | Ok metas => Ok (map Some metas)
     | Throw e => Throw e
     end, w2) /\
  forall metas,
    r = Ok metas -> Forall (fun m => validateMetaId (id m) = true) metas.
Proof.
  intros Hlist.
  assert (Hnorm : normalizeList
            (listMetas (createHyperdriveEphemeralContext drive_put drive_del
                          drive_exists drive_readdir drive_get Date_now
                          stringify buf_length JSON_parse ToString options))
            w1
          = (match r with
             | Ok metas => Ok (map Some metas)
             | Throw e => Throw e
             end, w2)).
  { unfold normalizeList, try_catch. cbn [listMetas
      createHyperdriveEphemeralContext]. rewrite Hlist.
    destruct r; reflexivity. }
  unfold as_listing in Hlist.
  destruct (context_listMetas _ _ _ _ _ _ _ _) as [r0 s'] eqn:Hrun.
  injection Hlist as <- <-. cbn [hw_effects hw_clock].
  repeat split; try exact Hnorm.
  intros metas ->. unfold context_listMetas in Hrun.
  apply listMetas_sound in Hrun
    as [-> | (readdir & entries & d1 & now & d2 & _ & _ & _ & Hwf)].
  - constructor.
  - eapply List.Forall_impl; [| exact Hwf]. now intros m [Hid _].
Qed.

Lemma present_map_Some (metas : list EphemeralMeta) :
  present (map Some metas) = metas.
Proof.
  unfold present. induction metas as [| m metas IH];
    [reflexivity | cbn; now f_equal].
Qed.

(** X24. On a drive whose [del] returns a promise (the call itself does
    not throw) and whose [exists] does not fail with [null] or
    [undefined] as the reason, a run with the context of the adapter
    fails only if the listing does. When [listMetas] fulfils, [runOnce]
    fulfils, whatever the promises of the deletions settle with: it
    returns the number of listed records that are due at the value [n]
    of the setup's clock and has called [onExpire] on each of them, in
    order; a record whose files could not be deleted is counted all the
    same. Its deletions write nothing and never meet an invalid id. When
    [listMetas] rejects, [runOnce] rejects with the same failure and
    deletes nothing. *)
Theorem runOnce_fails_only_with_listing g n w1 r w2 :
  returns_promise drive_del ->
  fails_with_a_reason drive_exists ->
  clock_nowFn Date_now (world g) = (Ok (VNum (Finite n)), w1) ->
  as_listing (context_listMetas drive_readdir drive_get Date_now buf_length
                JSON_parse ToString options) w1 = (r, w2) ->
  match r with
  | Ok metas =>
      exists g',
        runOnce drive_put drive_del drive_exists drive_readdir drive_get
          Date_now stringify buf_length JSON_parse ToString loadTime options g
        = (Ok {| expired := length (List.filter (due loadTime n) metas) |},
           g') /\
        calls g' = calls g ++ List.filter (due loadTime n) metas /\
        effects_grow regular_deletion (world g) (world g')
  | Throw e =>
      runOnce drive_put drive_del drive_exists drive_readdir drive_get
        Date_now stringify buf_length JSON_parse ToString loadTime options g
      = (Throw e, {| world := w2; calls := calls g |})
  end.
Proof.
  intros Hdel Hexists Hnow Hlist.
  destruct (setup_listing w1 w2 r Hlist) as (Heff & _ & Hnorm & Hids).
  unfold runOnce.
  set (ctx := createHyperdriveEphemeralContext drive_put drive_del
                drive_exists drive_readdir drive_get Date_now stringify
                buf_length JSON_parse ToString options) in *.
  destruct r as [metas | e].
  2: { apply (runEphemeralGC_listing_fails loadTime ctx
                {| nowFn := clock_nowFn Date_now |} g _ w1 e w2 Hnow Hnorm). }
  rewrite (runEphemeralGC_unfold loadTime ctx
             {| nowFn := clock_nowFn Date_now |} g _ w1 _ w2 Hnow Hnorm).
  destruct (gc_loop_succeeds loadTime ctx _ n (map Some metas) 0
              {| world := w2; calls := calls g |} eq_refl
              (fun meta w => setup_onExpire_fulfils meta w Hdel Hexists))
    as (g' & Hrun & Hcalls).
  unfold due_records in Hrun, Hcalls. rewrite present_map_Some in Hrun, Hcalls.
  exists g'. rewrite Hrun. split; [reflexivity |].
  split; [exact Hcalls |].
  assert (Hgrow : effects_grow regular_deletion w2 (world g')).
  { apply (gc_loop_world_rel loadTime ctx _ (effects_grow regular_deletion)
             _ _ _ _ _ _ eq_refl (effects_grow_refl _)
             (effects_grow_trans _)) in Hrun; [exact Hrun |].
    intros m w Hin. apply setup_onExpire_regular.
    apply in_map_iff in Hin as (m' & Hm & Hin). injection Hm as ->.
    specialize (Hids metas eq_refl). rewrite List.Forall_forall in Hids.
    now apply Hids. }
  destruct Hgrow as (es & He & Hes). exists es.
  split; [| exact Hes]. rewrite He, Heff.
  unfold clock_nowFn in Hnow.
  destruct (Date_now (hw_drive (world g))) as [current d'].
  destruct (now (hw_clock (world g)) current) as [v c'].
  injection Hnow as _ <-. reflexivity.
Qed.

(** X25. The one clock of a setup caps what it can expire. Created at
    the wall-clock reading [T], the clock of a setup has the ceiling [T]
    plus one hour; and from any state in which the clock is at or below
    its ceiling, a run never hands to [onExpire] a record whose
    [expiresAt] lies above that ceiling, however far the wall clock has
    moved, and it leaves the clock at or below the same ceiling, so that
    the same holds for every later run. *)
Theorem setup_never_expires_beyond_clock_ceiling
    g (m : EphemeralMeta) (e : Z) :
  (forall d,
     let w := createHyperdriveEphemeralGC (Buf := Buf) Date_now d in
     last (hw_clock w) <= ceiling (hw_clock w) /\
     ceiling (hw_clock w) = fst (Date_now d) + 60 * 60 * 1000) /\
  (last (hw_clock (world g)) <= ceiling (hw_clock (world g)) ->
   expiresAt m = VNum (Finite e) ->
   ceiling (hw_clock (world g)) < e ->
   let run := runOnce drive_put drive_del drive_exists drive_readdir
                drive_get Date_now stringify buf_length JSON_parse ToString
                loadTime options g in
   (exists l, calls (snd run) = calls g ++ l /\ ~ In m l) /\
   last (hw_clock (world (snd run))) <= ceiling (hw_clock (world (snd run)))
   /\ ceiling (hw_clock (world (snd run))) = ceiling (hw_clock (world g))).
Proof.
  split.
  { intros d. unfold createHyperdriveEphemeralGC.
    destruct (Date_now d) as [created d']. unfold ceiling. simpl. lia. }
  intros Hinv He Habove run.
  destruct (clock_nowFn Date_now (world g)) as [rn w1] eqn:Hnow.
  assert (Hclock : exists n,
             rn = Ok (VNum (Finite n)) /\ n <= ceiling (hw_clock (world g)) /\
             last (hw_clock w1) <= ceiling (hw_clock w1) /\
             ceiling (hw_clock w1) = ceiling (hw_clock (world g))).
  { unfold clock_nowFn in Hnow.
    destruct (Date_now (hw_drive (world g))) as [current d'].
    destruct (now_step (hw_clock (world g)) current Hinv)
      as (Hv & Hlast & Hceil).
    destruct (now (hw_clock (world g)) current) as [v c'].
    injection Hnow as <- <-. exists v. simpl in *.
    split; [reflexivity |]. split; [lia |]. split; [lia | exact Hceil]. }
  destruct Hclock as (n & -> & Hn & Hinv1 & Hceil1).
  destruct (as_listing (context_listMetas drive_readdir drive_get Date_now
                          buf_length JSON_parse ToString options) w1)
    as [r w2] eqn:Hlist.
  destruct (setup_listing w1 w2 r Hlist) as (_ & Hclock2 & Hnorm & _).
  set (ctx := createHyperdriveEphemeralContext drive_put drive_del
                drive_exists drive_readdir drive_get Date_now stringify
                buf_length JSON_parse ToString options) in *.
  destruct r as [metas | err].
  2: { assert (Hrun : run = (Throw err, {| world := w2; calls := calls g |})).
       { apply (runEphemeralGC_listing_fails loadTime ctx
                  {| nowFn := clock_nowFn Date_now |} g _ w1 err w2
                  Hnow Hnorm). }
       rewrite Hrun. cbn [snd world calls]. rewrite Hclock2.
       split; [exists []; split; [now rewrite app_nil_r | intros []] |].
       split; [lia | exact Hceil1]. }
  destruct (gc_loop loadTime ctx (VNum (Finite n)) (map Some metas) 0
              {| world := w2; calls := calls g |}) as [r0 g0] eqn:Hloop.
  assert (Hsnd : snd run = g0).
  { unfold run, runOnce. fold ctx.
    rewrite (runEphemeralGC_unfold loadTime ctx
               {| nowFn := clock_nowFn Date_now |} g _ w1 _ w2 Hnow Hnorm).
    rewrite Hloop. now destruct r0. }
  rewrite Hsnd.
  pose proof Hloop as Hrel.
  apply (gc_loop_world_rel loadTime ctx
           (fun meta =>
              as_adapter
                (context_onExpire drive_del drive_exists options meta))
           (fun w w' => hw_clock w' = hw_clock w) _ _ _ _ _ _ eq_refl) in Hrel.
  2: { reflexivity. }
  2: { intros a b c Hab Hbc. now rewrite Hbc. }
  2: { intros m' w _. apply setup_onExpire_keeps_clock. }
  cbn [world] in Hrel. rewrite Hrel, Hclock2.
  split; [| split; [lia | exact Hceil1]].
  apply (gc_loop_calls_prefix loadTime ctx
           (fun meta =>
              as_adapter
                (context_onExpire drive_del drive_exists options meta))
           n) in Hloop as (k & Hcalls & _);
    [| reflexivity].
  exists (firstn k (due_records loadTime n (map Some metas))).
  split; [exact Hcalls |].
  intros Hin.
  assert (Hin' : In m (due_records loadTime n (map Some metas))).
  { rewrite <- (firstn_skipn k). apply in_or_app. now left. }
  apply due_records_In in Hin' as [_ Hdue].
  unfold due in Hdue. rewrite He in Hdue.
  apply andb_true_iff in Hdue as [_ Hle]. apply Z.leb_le in Hle. lia.
Qed.
End HyperdriveGcFacts.

Lemma runOnce_fails_only_with_listing_witness :
  exists g',
    sample_runOnce [str "s1"] [VStr (str "message.txt")] sample_setup
    = (Ok {| expired := 1 |}, g') /\
    calls g' = [record "s1" (VNum (Finite 4000))].
Proof.
  assert (Hdel : returns_promise (mem_del (Buf := EphemeralMeta)))
    by (intros path d; reflexivity).
  assert (Hexists : fails_with_a_reason
                      (Some (mem_exists (Buf := EphemeralMeta)))).
  { intros g path d e Hg He. injection Hg as <-. discriminate He. }
  destruct (runOnce_fails_only_with_listing mem_put mem_del
              (Some mem_exists) (Some (mem_readdir [str "s1"])) mem_get
              (wall_clock_at 5000) (fun meta => meta) (fun _ => 100)
              (fun meta => Ok (Some meta)) ToString_on_strings 0
              {| prefix := str "/sessions"; metaFile := None;
                 filesToDelete := [VStr (str "message.txt")] |}
              sample_setup 5000 (world sample_setup)
              (Ok [record "s1" (VNum (Finite 4000))]) (world sample_setup)
              Hdel Hexists eq_refl eq_refl)
    as (g' & Hrun & Hcalls & _).
  exists g'. split; [exact Hrun | exact Hcalls].
Defined.

Lemma setup_never_expires_beyond_clock_ceiling_witness :
  exists l,
    calls (snd (sample_runOnce [str "s1"] [VStr (str "message.txt")]
                  sample_setup))
    = calls sample_setup ++ l /\
    ~ In (record "late" (VNum (Finite 8000000))) l.
Proof.
  apply (proj2 (setup_never_expires_beyond_clock_ceiling mem_put mem_del
                  (Some mem_exists) (Some (mem_readdir [str "s1"])) mem_get
                  (wall_clock_at 5000) (fun meta => meta) (fun _ => 100)
                  (fun meta => Ok (Some meta)) ToString_on_strings 0
                  {| prefix := str "/sessions"; metaFile := None;
                     filesToDelete := [VStr (str "message.txt")] |}
                  sample_setup (record "late" (VNum (Finite 8000000)))
                  8000000)).
  - vm_compute. discriminate.
  - reflexivity.
  - vm_compute. reflexivity.
Defined.
